(** * A terminal stock monitor ([stock.py]): model and verified properties

    The development follows the class [StockMonitor] of [stock.py]:
    - Python values: text as a list of Unicode code points, [float] as
      IEEE 754 binary64 ([spec_float] at precision 53), exceptions as a
      result type, [print] as a trace of output events;
    - [get_stock_price_optimized]: the request and the positional parser;
    - [get_display_width], [align_text], [display_one_line],
      [display_stock_info]: the display-width engine and the renderer;
    - [run]: the refresh loop, one cycle at a time.

    Library functions that the source calls but does not define
    ([unicodedata.east_asian_width], the builtin [float] applied to text,
    [requests.get], [datetime.datetime.now]) are variables of the
    sections that use them. *)

From Stdlib Require Import ZArith NArith List Bool Ascii String Lia.
From Stdlib Require Import Permutation Sorted.
From Stdlib Require Import Floats.SpecFloat.
From Stdlib Require Import DecimalString.
Import ListNotations.
Local Open Scope Z_scope.

(* ================================================================= *)
(** ** Python text *)

(** A Python [str] is a sequence of Unicode code points. *)
Definition char := N.
Definition str := list char.

Definition char_eqb (a b : char) : bool := N.eqb a b.
Arguments char_eqb : simpl never.

Fixpoint str_eqb (a b : str) : bool :=
  match a, b with
  | [], [] => true
  | x :: a', y :: b' => char_eqb x y && str_eqb a' b'
  | _, _ => false
  end.

(** Source literals are written as Rocq strings holding UTF-8 bytes;
    [utf8] decodes them into code points. *)
Fixpoint utf8 (bs : list N) : str :=
  match bs with
  | [] => []
  | b :: r =>
    if (b <? 128)%N then b :: utf8 r
    else if (b <? 224)%N then
      match r with
      | c1 :: r1 => ((b - 192) * 64 + (c1 - 128))%N :: utf8 r1
      | _ => []
      end
    else if (b <? 240)%N then
      match r with
      | c1 :: c2 :: r2 =>
        ((b - 224) * 4096 + (c1 - 128) * 64 + (c2 - 128))%N :: utf8 r2
      | _ => []
      end
    else
      match r with
      | c1 :: c2 :: c3 :: r3 =>
        ((b - 240) * 262144 + (c1 - 128) * 4096 + (c2 - 128) * 64
         + (c3 - 128))%N :: utf8 r3
      | _ => []
      end
  end.

Definition lit (s : string) : str :=
  utf8 (map N_of_ascii (list_ascii_of_string s)).

Definition ESC : char := 27%N.        (* the escape character, \033 *)
Definition NL : char := 10%N.         (* the newline, \n *)
Definition SPACE : char := 32%N.      (* the ASCII space *)
Definition DQUOTE : char := 34%N.     (* the double quote *)
Definition SEMI : char := 59%N.       (* the semicolon *)
Definition EQUALS : char := 61%N.     (* the equals sign *)
Definition TILDE : char := 126%N.     (* the tilde *)

(** [' ' * n]: [n <= 0] gives the empty text. *)
Definition spaces (n : Z) : str := repeat SPACE (Z.to_nat n).

(** [len(s)] *)
Definition len (s : str) : Z := Z.of_nat (List.length s).

(** [s.startswith(p)] *)
Fixpoint starts_with (p s : str) : bool :=
  match p, s with
  | [], _ => true
  | x :: p', y :: s' => char_eqb x y && starts_with p' s'
  | _ :: _, [] => false
  end.

(** [s.split(sep)] for a non-empty separator: cut at the occurrences of
    [sep], found from left to right without overlap.  [skip] counts the
    characters of a separator just matched that are still to be passed;
    [cur] holds the current piece, reversed. *)
Fixpoint split_go (sep : str) (skip : nat) (cur : str) (s : str)
  : list str :=
  match s with
  | [] => [rev cur]
  | c :: s' =>
    match skip with
    | S k => split_go sep k cur s'
    | O =>
      if starts_with sep s
      then rev cur :: split_go sep (pred (List.length sep)) [] s'
      else split_go sep O (c :: cur) s'
    end
  end.

Definition split (sep s : str) : list str := split_go sep O [] s.

(** [s.rstrip(chars)]: drop the trailing characters that belong to
    [chars]. *)
Definition char_in (chars : str) (c : char) : bool :=
  existsb (char_eqb c) chars.

Fixpoint lstrip (chars s : str) : str :=
  match s with
  | [] => []
  | c :: s' => if char_in chars c then lstrip chars s' else s
  end.

Definition rstrip (chars s : str) : str := rev (lstrip chars (rev s)).

(** [sep.join(pieces)] *)
Fixpoint join (sep : str) (pieces : list str) : str :=
  match pieces with
  | [] => []
  | [p] => p
  | p :: rest => p ++ sep ++ join sep rest
  end.

(** The format [{s:>w}]: right-justify by character count. *)
Definition rjust (w : Z) (s : str) : str := spaces (w - len s) ++ s.

(** Indexing [l[i]] for [i >= 0] is [nth_error]; out of range it raises
    [IndexError] (see [index] below). *)

(* ================================================================= *)
(** ** Exceptions and output *)

(** The exception classes that the source names or meets.  All but
    [KeyboardInterrupt] derive from [Exception]; [Timeout] derives from
    [RequestException]; [OtherException] stands for any [Exception]
    outside the classes listed before it. *)
Inductive exn : Type :=
| IndexError | ValueError | KeyError | TypeError | ZeroDivisionError
| Timeout | RequestException | OtherException | KeyboardInterrupt.

(** A computation returns a value or raises. *)
Inductive result (A : Type) : Type :=
| Ok (a : A)
| Raise (e : exn).
Arguments Ok {A} a.
Arguments Raise {A} e.

Definition rbind {A B} (m : result A) (f : A -> result B) : result B :=
  match m with
  | Ok a => f a
  | Raise e => Raise e
  end.

(** The diagnostics of [get_stock_price_optimized], one per handler.
    Their exact wording interpolates the exception's message and is not
    modelled. *)
Inductive diagnostic : Type :=
| BadStatus (status : Z)
| TimedOut (stock_code : str)
| NetworkError (stock_code : str)
| ParseError (stock_code raw_data : str)
| UnknownError (stock_code : str).

(** What reaches standard output: [print] writes a line, [sys.stdout.write]
    writes text as it is. *)
Inductive event : Type :=
| Line (line : str)
| Text (text : str)
| Diag (d : diagnostic).

(** Code that prints and may raise: the events emitted, in order, and
    how the computation ended. *)
Definition io (A : Type) : Type := list event * result A.

Definition ret {A} (a : A) : io A := ([], Ok a).
Definition raise {A} (e : exn) : io A := ([], Raise e).
Definition print (line : str) : io unit := ([Line line], Ok tt).
Definition emit (ev : event) : io unit := ([ev], Ok tt).
Definition lift {A} (r : result A) : io A := ([], r).

Definition bind {A B} (m : io A) (f : A -> io B) : io B :=
  match m with
  | (out, Ok a) => let (out', r) := f a in (out ++ out', r)
  | (out, Raise e) => (out, Raise e)
  end.

Declare Scope py_scope.
Delimit Scope py_scope with py.
Notation "x <- m ;; k" := (bind m (fun x => k))
  (at level 61, m at next level, right associativity) : py_scope.
Notation "m ;; k" := (bind m (fun _ => k))
  (at level 61, right associativity) : py_scope.
Notation "x <~ m ;; k" := (rbind m (fun x => k))
  (at level 61, m at next level, right associativity) : py_scope.

(** [for x in l: body] *)
Fixpoint for_each {A} (l : list A) (body : A -> io unit) : io unit :=
  match l with
  | [] => ret tt
  | x :: l' => bind (body x) (fun _ => for_each l' body)
  end.

(** A loop that collects one value per element:
    [acc = []; for x in l: acc.append(f(x))]. *)
Fixpoint collect {A B} (l : list A) (f : A -> io B) : io (list B) :=
  match l with
  | [] => ret []
  | x :: l' =>
    bind (f x) (fun y => bind (collect l' f) (fun ys => ret (y :: ys)))
  end.

(** [l[i]] *)
Definition index {A} (l : list A) (i : nat) : result A :=
  match nth_error l i with
  | Some x => Ok x
  | None => Raise IndexError
  end.

(* ================================================================= *)
(** ** Python floats *)

(** A Python [float] is an IEEE 754 binary64 number. *)
Definition float := spec_float.
Definition prec : Z := 53.
Definition emax : Z := 1024.

Definition float_of_int (n : Z) : float := binary_normalize prec emax n 0 false.

Definition is_zero (x : float) : bool :=
  match x with
  | S754_zero _ => true
  | _ => false
  end.

Definition is_nan (x : float) : bool :=
  match x with
  | S754_nan => true
  | _ => false
  end.

Definition fsub (x y : float) : float := SFsub prec emax x y.
Definition fmul (x y : float) : float := SFmul prec emax x y.

(** [x / y] raises [ZeroDivisionError] when [y] is a zero of either
    sign. *)
Definition fdiv (x y : float) : result float :=
  if is_zero y then Raise ZeroDivisionError else Ok (SFdiv prec emax x y).

Definition flt (x y : float) : bool := SFltb x y.
Definition fle (x y : float) : bool := SFleb x y.
Definition fzero : float := S754_zero false.

(** *** The format [.2f]

    The digits are those of the exact binary value, rounded to two
    decimals, ties to even. *)
Definition half_even_div (num den : Z) : Z :=
  let q := num / den in
  let r := num mod den in
  match 2 * r ?= den with
  | Lt => q
  | Gt => q + 1
  | Eq => if Z.even q then q else q + 1
  end.

(** [m * 2^e * 100], rounded to an integer. *)
Definition hundredths (m : positive) (e : Z) : Z :=
  match e with
  | Zneg p => half_even_div (Zpos m * 100) (2 ^ Zpos p)
  | _ => Zpos m * 100 * 2 ^ e
  end.

Definition digits (n : Z) : str :=
  lit (NilZero.string_of_uint (N.to_uint (Z.to_N n))).

Definition fixed2 (h : Z) : str :=
  let d := digits h in
  let d := repeat 48%N (3 - List.length d) ++ d in
  firstn (List.length d - 2) d ++ lit "." ++ skipn (List.length d - 2) d.

Definition sign_text (always : bool) (negative : bool) : str :=
  if negative then lit "-" else if always then lit "+" else [].

(** [format(x, '.2f')] and, with [always], [format(x, '+.2f')]. *)
Definition format_f2 (always : bool) (x : float) : str :=
  match x with
  | S754_nan => sign_text always false ++ lit "nan"
  | S754_infinity s => sign_text always s ++ lit "inf"
  | S754_zero s => sign_text always s ++ lit "0.00"
  | S754_finite s m e => sign_text always s ++ fixed2 (hundredths m e)
  end.

(* ================================================================= *)
(** ** [sorted(l, key=..., reverse=True)]

    The keys are computed first, element by element in list order, and
    the first exception raised by the key function is the outcome of the
    call.  The decorated list is then sorted into descending key order,
    stably: an element moves behind exactly those that have a strictly
    greater key.  Only [<] on keys is used.  On keys that [<] orders as
    a strict weak order this is the result of every stable sort, and so
    of Python's.  With a [nan] key [<] is no such order and Python's
    result depends on how its sort merges: the order is then not
    modelled, and every property below that speaks of the order of the
    result excludes [nan] keys. *)
Section Sorted.
Context {A K : Type}.
Variable lt : K -> K -> bool.

Fixpoint insert_desc (x : K * A) (l : list (K * A)) : list (K * A) :=
  match l with
  | [] => [x]
  | y :: l' => if lt (fst x) (fst y) then y :: insert_desc x l' else x :: l
  end.

Definition sort_desc (l : list (K * A)) : list (K * A) :=
  fold_right insert_desc [] l.

Fixpoint decorate (key : A -> result K) (l : list A)
  : result (list (K * A)) :=
  match l with
  | [] => Ok []
  | x :: l' =>
    rbind (key x) (fun k =>
    rbind (decorate key l') (fun kl => Ok ((k, x) :: kl)))
  end.

Definition sorted_reverse (key : A -> result K) (l : list A)
  : result (list A) :=
  rbind (decorate key l) (fun kl => Ok (map snd (sort_desc kl))).
End Sorted.

(* ================================================================= *)
(** ** The monitor *)

(** The dict built by [get_stock_price_optimized]. *)
Record stock_info : Type := {
  name : str;
  current : float;
  close : float;
  open : float;
  high : float;
  low : float
}.

(** The dict of display texts handed to [display_one_line]. *)
Record str_dict : Type := {
  code_text : str;
  name_text : str;
  current_text : str;
  change_text : str;
  high_text : str;
  low_text : str
}.

(** The classes returned by [unicodedata.east_asian_width]. *)
Inductive ea_width : Type := EA_F | EA_W | EA_A | EA_N | EA_Na | EA_H.

(** What [requests.get] does for one request: it raises one of its own
    exceptions, or the user interrupts it, or it returns a response, of
    which the source reads [status_code] and [text]. *)
Inductive reply : Type :=
| Response (status_code : Z) (text : str)
| TimesOut                       (* raises [Timeout] *)
| NetworkFails                   (* raises another [RequestException] *)
| Breaks                         (* raises some other [Exception] *)
| Interrupted.                   (* raises [KeyboardInterrupt] *)

Section Monitor.

(** [unicodedata.east_asian_width] *)
Variable east_asian_width : char -> ea_width.

(** The builtin [float] applied to text; [None] stands for
    [ValueError]. *)
Variable float_of_str : str -> option float.

(** *** [get_stock_price_optimized] *)

Definition to_float (s : str) : result float :=
  match float_of_str s with
  | Some x => Ok x
  | None => Raise ValueError
  end.

(** Lines 75 to 89: the body of the [if], from the response text to the
    dict. *)
Definition parse_response (raw_data : str) : result stock_info :=
  (piece <~ index (split [EQUALS; DQUOTE] raw_data) 1 ;;
   let data_str := rstrip [DQUOTE; SEMI] piece in
   let fields := split [TILDE] data_str in
   f1 <~ index fields 1 ;;
   f3 <~ index fields 3 ;; v3 <~ to_float f3 ;;
   f4 <~ index fields 4 ;; v4 <~ to_float f4 ;;
   f5 <~ index fields 5 ;; v5 <~ to_float f5 ;;
   f33 <~ index fields 33 ;; v33 <~ to_float f33 ;;
   f34 <~ index fields 34 ;; v34 <~ to_float f34 ;;
   Ok {| name := f1; current := v3; close := v4; open := v5;
         high := v33; low := v34 |})%py.

(** The request: the headers and the timeout of five seconds are fixed
    and only the address varies. *)
Definition url (stock_code : str) : str :=
  lit "http://qt.gtimg.cn/q=" ++ stock_code.

(** The [except] clauses, in order.  [KeyboardInterrupt] is not an
    [Exception] and passes through.  [raw_data] is read by the third
    clause only, which the body reaches only after binding it. *)
Definition handle (stock_code raw_data : str) (e : exn)
  : io (option stock_info) :=
  match e with
  | Timeout =>
    (emit (Diag (TimedOut stock_code)) ;; ret None)%py
  | RequestException =>
    (emit (Diag (NetworkError stock_code)) ;; ret None)%py
  | IndexError | ValueError | KeyError =>
    (emit (Diag (ParseError stock_code raw_data)) ;; ret None)%py
  | KeyboardInterrupt => raise KeyboardInterrupt
  | _ =>
    (emit (Diag (UnknownError stock_code)) ;; ret None)%py
  end.

Definition get_stock_price_optimized (requests_get : str -> reply)
  (stock_code : str) : io (option stock_info) :=
  match requests_get (url stock_code) with
  | TimesOut => handle stock_code [] Timeout
  | NetworkFails => handle stock_code [] RequestException
  | Breaks => handle stock_code [] OtherException
  | Interrupted => handle stock_code [] KeyboardInterrupt
  | Response status_code raw_data =>
    if status_code =? 200 then
      match parse_response raw_data with
      | Ok info => ret (Some info)
      | Raise e => handle stock_code raw_data e
      end
    else (emit (Diag (BadStatus status_code)) ;; ret None)%py
  end.

(** *** [get_display_width] *)

Definition is_wide (c : char) : bool :=
  match east_asian_width c with
  | EA_F | EA_W => true
  | _ => false
  end.

Definition get_display_width (s : str) : Z :=
  fold_left (fun width c => if is_wide c then width + 2 else width + 1)
            s 0.

(** *** [align_text] *)

Definition align_text (text : str) (target_width : Z) (align : str)
  : str :=
  let actual_width := get_display_width text in
  let padding_needed := target_width - actual_width in
  if padding_needed <=? 0 then text
  else if str_eqb align (lit "left") then text ++ spaces padding_needed
  else if str_eqb align (lit "right") then spaces padding_needed ++ text
  else if str_eqb align (lit "center") then
    let left_padding := padding_needed / 2 in
    let right_padding := padding_needed - left_padding in
    spaces left_padding ++ text ++ spaces right_padding
  else text.

(** *** [display_one_line] *)

Definition code_width : Z := 10.
Definition name_width : Z := 12.
Definition price_width : Z := 10.
Definition change_width : Z := 18.
Definition high_width : Z := 10.
Definition low_width : Z := 10.

Definition one_line (d : str_dict) : str :=
  let aligned_code := align_text (code_text d) code_width (lit "left") in
  let aligned_name := align_text (name_text d) name_width (lit "left") in
  let aligned_price :=
    align_text (current_text d) price_width (lit "right") in
  let aligned_change :=
    align_text (change_text d) change_width (lit "right") in
  let aligned_high := align_text (high_text d) high_width (lit "right") in
  let aligned_low := align_text (low_text d) low_width (lit "right") in
  aligned_code ++ [SPACE] ++ aligned_name ++ [SPACE] ++ aligned_price
  ++ [SPACE] ++ aligned_change ++ [SPACE] ++ aligned_high ++ [SPACE]
  ++ aligned_low.

Definition display_one_line (d : str_dict) : io unit := print (one_line d).

(** *** [display_stock_info] *)

Definition color_code (change : float) : str :=
  if flt change fzero then ESC :: lit "[32m" else ESC :: lit "[31m".

Definition reset_code : str := ESC :: lit "[0m".

Definition symbol (change : float) : str :=
  if fle fzero change then lit "↑" else lit "↓".

(** Line 174. *)
Definition change_str (change change_percent : float) : str :=
  let change_display := rjust 7 (format_f2 true change) in
  let percent_display :=
    lit "(" ++ rjust 6 (format_f2 true change_percent) ++ lit "%)" in
  color_code change ++ change_display ++ [SPACE] ++ percent_display
  ++ symbol change ++ reset_code.

(** The line printed for an absent quote (line 186). *)
Definition placeholder_line (stock_code : str) : str :=
  rjust 10 stock_code ++ [SPACE] ++ rjust 12 (lit "N/A") ++ [SPACE]
  ++ rjust 10 (lit "N/A") ++ [SPACE] ++ rjust 18 (lit "N/A") ++ [SPACE]
  ++ rjust 10 (lit "N/A") ++ [SPACE] ++ rjust 10 (lit "N/A").

Definition display_stock_info (info : option stock_info)
  (stock_code : str) : io unit :=
  match info with
  | Some stock_info =>
    let change := fsub (current stock_info) (close stock_info) in
    (ratio <- lift (fdiv change (close stock_info)) ;;
     let change_percent := fmul ratio (float_of_int 100) in
     display_one_line
       {| code_text := stock_code;
          name_text := name stock_info;
          current_text := format_f2 false (current stock_info);
          change_text := change_str change change_percent;
          high_text := rjust 7 (format_f2 false (high stock_info));
          low_text := rjust 7 (format_f2 false (low stock_info)) |})%py
  | None => print (placeholder_line stock_code)
  end.

(** *** [run] *)

(** The header dict of lines 198 to 205. *)
Definition header : str_dict :=
  {| code_text := lit "代码"; name_text := lit "名称";
     current_text := lit "当前"; change_text := lit "涨跌";
     high_text := lit "最高"; low_text := lit "最低" |}.

(** The key function of line 211; subscripting [None] raises
    [TypeError]. *)
Definition sort_key (info : option stock_info) : result float :=
  match info with
  | Some stock_info =>
    fdiv (fsub (current stock_info) (close stock_info)) (close stock_info)
  | None => Raise TypeError
  end.

(** What one pass of the loop meets outside the program: the quote
    server and the clock. *)
Record world : Type := {
  requests_get : str -> reply;
  now : str
}.

(** One pass of the [while] body, lines 196 to 214.  The second loop
    reads [code], which the first loop left bound to the last configured
    code.  Flushing standard output and sleeping leave no trace in the
    model. *)
Definition refresh (stock_codes : list str) (w : world) : io unit :=
  (emit (Text (ESC :: lit "[;H")) ;;
   display_one_line header ;;
   stock_info_list <-
     collect stock_codes (get_stock_price_optimized (requests_get w)) ;;
   let code := last stock_codes [] in
   ordered <- lift (sorted_reverse flt sort_key stock_info_list) ;;
   for_each ordered (fun info => display_stock_info info code) ;;
   print (lit "最后刷新时间: " ++ [SPACE] ++ now w))%py.

(** [except KeyboardInterrupt] *)
Definition on_interrupt (m : io unit) : io unit :=
  match m with
  | (out, Raise KeyboardInterrupt) =>
    (out ++ [Line (NL :: lit "程序已退出")], Ok tt)
  | _ => m
  end.

(** [run], observed for the passes of the loop that [worlds] lists.
    [time.sleep] of line 215 is taken to return: the configured interval
    is not negative and the sleep is not interrupted. *)
Definition run (stock_codes : list str) (worlds : list world) : io unit :=
  match stock_codes with
  | [] => print (lit "配置文件中未找到有效的股票代码")
  | _ :: _ =>
    on_interrupt
      (print (ESC :: lit "[2J") ;; for_each worlds (refresh stock_codes))%py
  end.

End Monitor.

(* ================================================================= *)
(** ** Concrete library functions, for the examples *)

(** An excerpt of the Unicode East Asian Width table: the ASCII range,
    the arrows, the CJK unified ideographs and the fullwidth forms. *)
Definition eaw_excerpt (c : char) : ea_width :=
  if (c <? 32)%N then EA_N
  else if (c <? 127)%N then EA_Na
  else if ((8592 <=? c) && (c <=? 8601))%N then EA_A
  else if ((19968 <=? c) && (c <=? 40959))%N then EA_W
  else if ((65281 <=? c) && (c <=? 65376))%N then EA_F
  else EA_N.

(** The builtin [float] on plain decimal literals: an optional sign,
    digits, an optional point and more digits.  The value is the binary64
    number nearest to the decimal one.  The other forms that Python reads
    (exponents, [inf], [nan], blanks around the literal) are absent: the
    examples do not use them. *)
Definition is_digit (c : char) : bool := ((48 <=? c) && (c <=? 57))%N.

Fixpoint digits_value (s : str) (acc : Z) : option Z :=
  match s with
  | [] => Some acc
  | c :: s' =>
    if is_digit c then digits_value s' (acc * 10 + Z.of_N (c - 48))
    else None
  end.

Definition nearest_decimal (negative : bool) (m : Z) (k : nat) : float :=
  match m with
  | Zpos p =>
    SFdiv prec emax (S754_finite negative p 0)
          (S754_finite false (Z.to_pos (10 ^ Z.of_nat k)) 0)
  | _ => S754_zero negative
  end.

Definition unsigned_decimal (negative : bool) (body : str) : option float :=
  match split (lit ".") body with
  | [ip] =>
    match ip with
    | [] => None
    | _ => option_map (fun m => nearest_decimal negative m 0)
                      (digits_value ip 0)
    end
  | [ip; fp] =>
    match ip ++ fp with
    | [] => None
    | all => option_map
               (fun m => nearest_decimal negative m (List.length fp))
               (digits_value all 0)
    end
  | _ => None
  end.

Definition decimal_float (s : str) : option float :=
  match s with
  | 45%N :: body => unsigned_decimal true body
  | 43%N :: body => unsigned_decimal false body
  | _ => unsigned_decimal false s
  end.

(** A sample reply of the feed, cut down to 35 fields, and the quote it
    carries. *)
Definition sample_fields : list str :=
  [lit "1"; lit "中国平安"; lit "601318"; lit "27.85"; lit "27.80";
   lit "27.82"]
  ++ repeat (lit "0") 27 ++ [lit "28.10"; lit "27.55"].

(** The same fields, with a previous close of zero, and the quote they
    carry. *)
Definition zero_close_fields : list str :=
  [lit "1"; lit "中国平安"; lit "601318"; lit "27.85"; lit "0.00";
   lit "27.82"]
  ++ repeat (lit "0") 27 ++ [lit "28.10"; lit "27.55"].

(** A quote server given by its replies, code by code. *)
Definition serving (replies : list (str * reply)) (request : str) : reply :=
  match find (fun p => str_eqb (lit "http://qt.gtimg.cn/q=" ++ fst p)
                               request) replies with
  | Some p => snd p
  | None => NetworkFails
  end.

Definition two_codes : list str := [lit "sh601318"; lit "sz000001"].

(** The reply of the feed to a code it does not know. *)
Definition no_match : str :=
  lit "v_pv_none_match=" ++ [DQUOTE] ++ lit "1" ++ [DQUOTE; SEMI].

(** The request for the first code times out; the second is quoted. *)
Definition world_timeout : world :=
  {| requests_get :=
       serving [(lit "sh601318", TimesOut);
                (lit "sz000001",
                 Response 200 (lit "v_sz000001" ++ [EQUALS; DQUOTE]
                               ++ join [TILDE] sample_fields
                               ++ [DQUOTE; SEMI]))];
     now := lit "2024-01-02 09:30:00.000000" |}.

(** The first code is quoted; the reply for the second does not parse. *)
Definition world_no_match : world :=
  {| requests_get :=
       serving [(lit "sh601318",
                 Response 200 (lit "v_sh601318" ++ [EQUALS; DQUOTE]
                               ++ join [TILDE] sample_fields
                               ++ [DQUOTE; SEMI]));
                (lit "sz000001", Response 200 no_match)];
     now := lit "2024-01-02 09:30:00.000000" |}.

(** Both codes are quoted. *)
Definition world_both : world :=
  {| requests_get :=
       serving [(lit "sh601318",
                 Response 200 (lit "v_sh601318" ++ [EQUALS; DQUOTE]
                               ++ join [TILDE] sample_fields
                               ++ [DQUOTE; SEMI]));
                (lit "sz000001",
                 Response 200 (lit "v_sz000001" ++ [EQUALS; DQUOTE]
                               ++ join [TILDE] sample_fields
                               ++ [DQUOTE; SEMI]))];
     now := lit "2024-01-02 09:30:00.000000" |}.

(** The only code is quoted with a previous close of zero. *)
Definition world_zero_close : world :=
  {| requests_get :=
       serving [(lit "sh601318",
                 Response 200 (lit "v_sh601318" ++ [EQUALS; DQUOTE]
                               ++ join [TILDE] zero_close_fields
                               ++ [DQUOTE; SEMI]))];
     now := lit "2024-01-02 09:30:00.000000" |}.

(** The same fields, with a name that contains the opening marker. *)
Definition marked_fields : list str :=
  [lit "1"; lit "A" ++ [EQUALS; DQUOTE] ++ lit "B"; lit "601318";
   lit "27.85"; lit "27.80"; lit "27.82"]
  ++ repeat (lit "0") 27 ++ [lit "28.10"; lit "27.55"].

Definition decimal (s : string) : float :=
  match decimal_float (lit s) with
  | Some x => x
  | None => S754_nan
  end.

Definition sample_quote : stock_info :=
  {| name := lit "中国平安";
     current := decimal "27.85"; close := decimal "27.80";
     open := decimal "27.82";
     high := decimal "28.10"; low := decimal "27.55" |}.

Definition zero_close_quote : stock_info :=
  {| name := lit "中国平安";
     current := decimal "27.85"; close := decimal "0.00";
     open := decimal "27.82";
     high := decimal "28.10"; low := decimal "27.55" |}.

(** The row of [sample_quote], as [display_stock_info] prints it for the
    code [stock_code]. *)
Definition sample_row (stock_code : str) : str :=
  one_line eaw_excerpt
    {| code_text := stock_code;
       name_text := lit "中国平安";
       current_text := lit "27.85";
       change_text := ESC :: lit "[31m  +0.05 ( +0.18%)↑" ++ ESC :: lit "[0m";
       high_text := lit "  28.10";
       low_text := lit "  27.55" |}.

(* ================================================================= *)
(** ** The specification's wording, for comparison with the code *)

(** The width of a text as the specification words it: the sum over its
    characters of 2 for a Fullwidth or Wide character and of 1 for any
    other. *)
Definition char_cells (east_asian_width : char -> ea_width) (c : char) : Z :=
  match east_asian_width c with
  | EA_F | EA_W => 2
  | _ => 1
  end.

Definition cells_sum (east_asian_width : char -> ea_width) (s : str) : Z :=
  fold_right (fun c total => char_cells east_asian_width c + total) 0 s.

(** [sep in s]: the text [sep] occurs somewhere in [s]. *)
Fixpoint occurs (sep s : str) : bool :=
  starts_with sep s
  || match s with
     | [] => false
     | _ :: s' => occurs sep s'
     end.

(** The feed's line: an identifier, the opening marker, the fields
    joined by tildes, the closing marker. *)
Definition opening : str := [EQUALS; DQUOTE].
Definition closing : str := [DQUOTE; SEMI].

Definition payload (identifier : str) (fields : list str) : str :=
  identifier ++ opening ++ join [TILDE] fields ++ closing.

(** A quote written out as the 35 fields of a payload: the name at
    position 1, the prices at positions 3, 4, 5, 33 and 34, printed by
    [show], and [filler] everywhere else. *)
Definition quote_fields (show : float -> str) (filler : str)
  (q : stock_info) : list str :=
  [filler; name q; filler; show (current q); show (close q);
   show (open q)]
  ++ repeat filler 27 ++ [show (high q); show (low q)].

Definition serialize (show : float -> str) (identifier filler : str)
  (q : stock_info) : str :=
  payload identifier (quote_fields show filler q).

(** The fields that lines 76 and 77 compute from a response text. *)
Definition fields_of (raw_data : str) : list str :=
  split [TILDE] (rstrip closing (nth 1 (split opening raw_data) [])).

(** Lines 81 to 88 on their own: the dict built from the fields. *)
Definition extract (float_of_str : str -> option float)
  (fields : list str) : result stock_info :=
  (f1 <~ index fields 1 ;;
   f3 <~ index fields 3 ;; v3 <~ to_float float_of_str f3 ;;
   f4 <~ index fields 4 ;; v4 <~ to_float float_of_str f4 ;;
   f5 <~ index fields 5 ;; v5 <~ to_float float_of_str f5 ;;
   f33 <~ index fields 33 ;; v33 <~ to_float float_of_str f33 ;;
   f34 <~ index fields 34 ;; v34 <~ to_float float_of_str f34 ;;
   Ok {| name := f1; current := v3; close := v4; open := v5;
         high := v33; low := v34 |})%py.

(** The order of the numbers, for the proofs about [<]: a class (the
    infinities, the two signs of finite numbers, the zeros), then the
    exponent, then the mantissa, compared in this order.  It is read
    only off numbers, never off [nan]. *)
Definition rank (x : float) : Z * Z * Z :=
  match x with
  | S754_infinity true => (-2, 0, 0)
  | S754_finite true m e => (-1, - e, - Zpos m)
  | S754_zero _ => (0, 0, 0)
  | S754_nan => (0, 0, 0)
  | S754_finite false m e => (1, e, Zpos m)
  | S754_infinity false => (2, 0, 0)
  end.

Definition lex_lt (a b : Z * Z * Z) : Prop :=
  let '(a1, a2, a3) := a in
  let '(b1, b2, b3) := b in
  a1 < b1 \/ (a1 = b1 /\ (a2 < b2 \/ (a2 = b2 /\ a3 < b3))).

(** The entries of a list that have a key equivalent to [k]: neither
    is below the other. *)
Definition same_key {K} (lt : K -> K -> bool) (k k' : K) : bool :=
  negb (lt k k') && negb (lt k' k).

(** [b] may follow [a] in a list sorted by descending sort key: the key
    of [a] is not below that of [b]. *)
Definition descending (a b : option stock_info) : Prop :=
  forall ka kb, sort_key a = Ok ka -> sort_key b = Ok kb ->
                flt ka kb = false.

Definition same_sort_key (k : float) (info : option stock_info) : bool :=
  match sort_key info with
  | Ok k' => same_key flt k k'
  | Raise _ => false
  end.

(** The change-percent of line 160. *)
Definition change_percent (info : option stock_info) : result float :=
  rbind (sort_key info) (fun ratio => Ok (fmul ratio (float_of_int 100))).

(** Four quotes with change-percents +5.0, -2.0, +5.0 and 0.0. *)
Definition quote_of (n current_text close_text : string) : stock_info :=
  {| name := lit n;
     current := decimal current_text; close := decimal close_text;
     open := decimal close_text;
     high := decimal current_text; low := decimal close_text |}.

Definition up5 : stock_info := quote_of "A" "105" "100".
Definition down2 : stock_info := quote_of "B" "98" "100".
Definition up5' : stock_info := quote_of "C" "210" "200".
Definition flat : stock_info := quote_of "D" "100" "100".

(* ================================================================= *)
(** ** The configured codes ([load_config], line 31) *)

(** The characters that [str.isspace] accepts; [str.strip] without
    argument removes them from both ends. *)
Definition whitespace : str :=
  [9; 10; 11; 12; 13; 28; 29; 30; 31; 32; 133; 160; 5760;
   8192; 8193; 8194; 8195; 8196; 8197; 8198; 8199; 8200; 8201; 8202;
   8232; 8233; 8239; 8287; 12288]%N.

(** [s.strip()] *)
Definition strip (s : str) : str := rstrip whitespace (lstrip whitespace s).

Definition COMMA : char := 44%N.

(** A text is true when it is not empty. *)
Definition truthy (s : str) : bool :=
  match s with
  | [] => false
  | _ :: _ => true
  end.

(** The list comprehension of line 31, on the text that
    [config['Stocks'].get('codes', '')] returns:
    [[code.strip() for code in value.split(',') if code.strip()]]. *)
Definition codes_of (value : str) : list str :=
  map strip (filter (fun code => truthy (strip code)) (split [COMMA] value)).

(** The text of line 44, the codes of the default configuration. *)
Definition default_codes : str := lit "sh601318,sz000001,sh600036,sz000858".

(* ================================================================= *)
(** ** Rows and notices, named for the statements *)

(** The row that [display_stock_info] prints for a quote whose previous
    close is not zero: lines 159 to 183 with the division carried
    out. *)
Definition quote_row (east_asian_width : char -> ea_width)
  (q : stock_info) (stock_code : str) : str :=
  let change := fsub (current q) (close q) in
  let change_percent :=
    fmul (SFdiv prec emax change (close q)) (float_of_int 100) in
  one_line east_asian_width
    {| code_text := stock_code;
       name_text := name q;
       current_text := format_f2 false (current q);
       change_text := change_str change change_percent;
       high_text := rjust 7 (format_f2 false (high q));
       low_text := rjust 7 (format_f2 false (low q)) |}.

Definition row_of (east_asian_width : char -> ea_width)
  (stock_code : str) (info : option stock_info) : str :=
  match info with
  | Some q => quote_row east_asian_width q stock_code
  | None => placeholder_line stock_code
  end.

(** The notices of lines 191 and 217 and the escapes of lines 194 and
    196. *)
Definition no_codes_notice : str := lit "配置文件中未找到有效的股票代码".
Definition cursor_home : str := ESC :: lit "[;H".

(** The time line of line 213. *)
Definition stamp (w : world) : str :=
  lit "最后刷新时间: " ++ [SPACE] ++ now w.

(** A code as [load_config] keeps it: not empty, without comma, and
    with no whitespace at either end. *)
Definition clean_code (code : str) : Prop :=
  code <> []
  /\ ~ In COMMA code
  /\ (forall c, hd_error code = Some c -> char_in whitespace c = false)
  /\ (forall c, hd_error (rev code) = Some c ->
                char_in whitespace c = false).

(** Two quotes that both show a change-percent of +5.0 while their
    sort keys differ in the last place. *)
Definition up5_above : stock_info := quote_of "A" "5.25" "5.00".
Definition up5_below : stock_info := quote_of "C" "14.07" "13.40".

(** A second sample reply, of a falling quote, and a world that serves
    it for the first code and the rising sample for the second. *)
Definition falling_fields : list str :=
  [lit "1"; lit "平安银行"; lit "000001"; lit "9.80"; lit "10.00";
   lit "9.95"]
  ++ repeat (lit "0") 27 ++ [lit "10.05"; lit "9.75"].

Definition falling_quote : stock_info :=
  {| name := lit "平安银行";
     current := decimal "9.80"; close := decimal "10.00";
     open := decimal "9.95";
     high := decimal "10.05"; low := decimal "9.75" |}.

Definition world_mixed : world :=
  {| requests_get :=
       serving [(lit "sh601318",
                 Response 200 (lit "v_sh601318" ++ [EQUALS; DQUOTE]
                               ++ join [TILDE] falling_fields
                               ++ [DQUOTE; SEMI]));
                (lit "sz000001",
                 Response 200 (lit "v_sz000001" ++ [EQUALS; DQUOTE]
                               ++ join [TILDE] sample_fields
                               ++ [DQUOTE; SEMI]))];
     now := lit "2024-01-02 09:30:00.000000" |}.

(** An outcome that the sort step and the renderer accept: a quote
    whose previous close is not a zero. *)
Definition renderable (info : option stock_info) : Prop :=
  exists q, info = Some q /\ is_zero (close q) = false.

(* ================================================================= *)
(** * Properties *)

Example split_tilde :
  split (lit "~") (lit "a~b~") = [lit "a"; lit "b"; lit ""].
Proof. reflexivity. Qed.

Example split_marker :
  split [EQUALS; DQUOTE] (lit "x" ++ [EQUALS; DQUOTE] ++ lit "y"
                          ++ [EQUALS; DQUOTE] ++ lit "z")
  = [lit "x"; lit "y"; lit "z"].
Proof. reflexivity. Qed.

Example split_no_overlap :
  split (lit "==") (lit "a===b") = [lit "a"; lit "=b"].
Proof. reflexivity. Qed.

Example rstrip_closer :
  rstrip [DQUOTE; SEMI] (lit "abc" ++ [DQUOTE; SEMI; DQUOTE; SEMI])
  = lit "abc".
Proof. reflexivity. Qed.

Example utf8_cjk : lit "代码" = [20195%N; 30721%N].
Proof. reflexivity. Qed.

Example float_27_85 :
  decimal_float (lit "27.85") = Some (S754_finite false 7839078101391770 (-48)).
Proof. vm_compute. reflexivity. Qed.

Example float_100 :
  decimal_float (lit "100") = Some (float_of_int 100).
Proof. vm_compute. reflexivity. Qed.

Example change_27_85 :
  fsub (decimal "27.85") (decimal "27.80")
  = S754_finite false 7205759403792896 (-57).
Proof. vm_compute. reflexivity. Qed.

Example format_change :
  rjust 7 (format_f2 true (fsub (decimal "27.85") (decimal "27.80")))
  = lit "  +0.05".
Proof. vm_compute. reflexivity. Qed.

Example format_ties_to_even :
  map (format_f2 false) [decimal "0.125"; decimal "0.375"; decimal "2.675"]
  = [lit "0.12"; lit "0.38"; lit "2.67"].
Proof. vm_compute. reflexivity. Qed.

Example format_specials :
  map (format_f2 true) [S754_nan; S754_infinity true; S754_zero true]
  = [lit "+nan"; lit "-inf"; lit "-0.00"].
Proof. vm_compute. reflexivity. Qed.

Example divide_by_negative_zero :
  fdiv (decimal "1") (S754_zero true) = Raise ZeroDivisionError.
Proof. reflexivity. Qed.

Example placeholder_row :
  placeholder_line (lit "sz000001")
  = lit "  sz000001          N/A        N/A                N/A        N/A        N/A".
Proof. vm_compute. reflexivity. Qed.

Example sorted_reverse_stable :
  sorted_reverse Nat.ltb (fun p : nat * nat => Ok (fst p))
                 [(1, 0); (3, 1); (2, 2); (3, 3); (1, 4)]%nat
  = Ok [(3, 1); (3, 3); (2, 2); (1, 0); (1, 4)]%nat.
Proof. reflexivity. Qed.


(* ================================================================= *)
(** ** Display width and alignment *)

Section WidthFacts.
Variable east_asian_width : char -> ea_width.

Local Abbreviation width := (get_display_width east_asian_width).
Local Abbreviation wide := (is_wide east_asian_width).
Local Abbreviation pad := (align_text east_asian_width).

Lemma char_cells_wide c :
  char_cells east_asian_width c = if wide c then 2 else 1.
Proof. unfold char_cells, is_wide. destruct (east_asian_width c); reflexivity. Qed.

Lemma width_loop s : forall acc,
  fold_left (fun w c => if wide c then w + 2 else w + 1) s acc
  = acc + cells_sum east_asian_width s.
Proof.
  induction s as [|c s IH]; intros acc; simpl.
  - lia.
  - rewrite IH, char_cells_wide. destruct (wide c); lia.
Qed.

Lemma width_cells s : width s = cells_sum east_asian_width s.
Proof. unfold get_display_width. rewrite width_loop. lia. Qed.

Lemma width_nil : width [] = 0.
Proof. reflexivity. Qed.

Lemma width_cons c s : width (c :: s) = (if wide c then 2 else 1) + width s.
Proof. rewrite !width_cells. simpl. now rewrite char_cells_wide. Qed.

Lemma width_app a b : width (a ++ b) = width a + width b.
Proof.
  induction a as [|c a IH]; cbn [app].
  - rewrite width_nil. lia.
  - rewrite !width_cons, IH. lia.
Qed.

Lemma width_nonneg s : 0 <= width s.
Proof.
  induction s as [|c s IH].
  - rewrite width_nil. lia.
  - rewrite width_cons. destruct (wide c); lia.
Qed.

Lemma width_narrow s :
  Forall (fun c => wide c = false) s -> width s = len s.
Proof.
  unfold len. induction 1 as [|c s Hc _ IH].
  - reflexivity.
  - rewrite width_cons, Hc, IH. simpl List.length. lia.
Qed.

Lemma width_wide s :
  Forall (fun c => wide c = true) s -> width s = 2 * len s.
Proof.
  unfold len. induction 1 as [|c s Hc _ IH].
  - reflexivity.
  - rewrite width_cons, Hc, IH. simpl List.length. lia.
Qed.

Lemma len_spaces n : len (spaces n) = Z.max 0 n.
Proof. unfold len, spaces. rewrite repeat_length. lia. Qed.

Lemma len_app (a b : str) : len (a ++ b) = len a + len b.
Proof. unfold len. rewrite length_app. lia. Qed.

Lemma len_nonneg (s : str) : 0 <= len s.
Proof. unfold len. lia. Qed.

Lemma spaces_nonpos n : n <= 0 -> spaces n = [].
Proof. intros H. unfold spaces. destruct n; try lia; reflexivity. Qed.

Lemma width_spaces n :
  wide SPACE = false -> width (spaces n) = Z.max 0 n.
Proof.
  intros Hsp. rewrite width_narrow.
  - apply len_spaces.
  - unfold spaces. apply Forall_forall. intros c Hc.
    apply repeat_spec in Hc. now subst.
Qed.

(** The three branches of [align_text], and the guard before them. *)
Lemma align_text_fits text w align :
  w <= width text -> pad text w align = text.
Proof.
  intros H. unfold align_text.
  destruct (Z.leb_spec (w - width text) 0); [reflexivity | lia].
Qed.

Lemma align_text_left text w :
  width text < w ->
  pad text w (lit "left") = text ++ spaces (w - width text).
Proof.
  intros H. unfold align_text.
  destruct (Z.leb_spec (w - width text) 0); [lia | reflexivity].
Qed.

Lemma align_text_right text w :
  width text < w ->
  pad text w (lit "right") = spaces (w - width text) ++ text.
Proof.
  intros H. unfold align_text.
  destruct (Z.leb_spec (w - width text) 0); [lia | reflexivity].
Qed.

Lemma align_text_center text w :
  width text < w ->
  pad text w (lit "center")
  = spaces ((w - width text) / 2) ++ text
    ++ spaces ((w - width text) - (w - width text) / 2).
Proof.
  intros H. unfold align_text.
  destruct (Z.leb_spec (w - width text) 0); [lia | reflexivity].
Qed.

Lemma align_text_other text w align :
  str_eqb align (lit "left") = false ->
  str_eqb align (lit "right") = false ->
  str_eqb align (lit "center") = false ->
  pad text w align = text.
Proof.
  intros Hl Hr Hc. unfold align_text. rewrite Hl, Hr, Hc.
  now destruct (_ <=? _).
Qed.

Lemma wide_class c :
  wide c = true <-> east_asian_width c = EA_F \/ east_asian_width c = EA_W.
Proof.
  unfold is_wide. destruct (east_asian_width c); split; intros H;
    try reflexivity; try discriminate; auto;
    destruct H; discriminate.
Qed.

Lemma narrow_class c :
  wide c = false
  <-> east_asian_width c <> EA_F /\ east_asian_width c <> EA_W.
Proof.
  unfold is_wide. destruct (east_asian_width c); split; intros H;
    try reflexivity; try discriminate; try (split; discriminate);
    destruct H; congruence.
Qed.

(** C7. The loop of [get_display_width] computes the sum, over the
    characters of the text, of 2 for a character of East Asian Width
    class F or W and of 1 for any other.  Hence a text of narrow
    characters only is as wide as it is long, a text of wide characters
    only is twice as wide as it is long, and a wide text followed by a
    narrow one has the sum of the two widths. *)
Theorem get_display_width_sum (s a b : str) :
  width s = cells_sum east_asian_width s
  /\ (Forall (fun c => east_asian_width c <> EA_F
                       /\ east_asian_width c <> EA_W) s ->
      width s = len s)
  /\ (Forall (fun c => east_asian_width c = EA_F
                       \/ east_asian_width c = EA_W) s ->
      width s = 2 * len s)
  /\ (Forall (fun c => east_asian_width c = EA_F
                       \/ east_asian_width c = EA_W) a ->
      Forall (fun c => east_asian_width c <> EA_F
                       /\ east_asian_width c <> EA_W) b ->
      width (a ++ b) = 2 * len a + len b).
Proof.
  split; [apply width_cells|].
  split; [|split].
  - intros H. apply width_narrow.
    eapply Forall_impl; [|exact H]. intros c Hc. now apply narrow_class.
  - intros H. apply width_wide.
    eapply Forall_impl; [|exact H]. intros c Hc. now apply wide_class.
  - intros Ha Hb. rewrite width_app.
    rewrite (width_wide a), (width_narrow b); [reflexivity| |].
    + eapply Forall_impl; [|exact Hb]. intros c Hc. now apply narrow_class.
    + eapply Forall_impl; [|exact Ha]. intros c Hc. now apply wide_class.
Qed.

(** C8. When the text is at least as wide as the target, [align_text]
    returns it unchanged, whatever the mode.  Otherwise it adds
    [target - width] ASCII spaces: all after the text for [left], all
    before it for [right]; for [center] the floor of half of them before
    and the rest after.  The result is never shorter than the text. *)
Theorem align_text_padding (text : str) (target_width : Z) (mode : str) :
  let deficit := target_width - width text in
  (target_width <= width text -> pad text target_width mode = text)
  /\ (width text < target_width ->
      pad text target_width (lit "left") = text ++ repeat SPACE (Z.to_nat deficit)
      /\ pad text target_width (lit "right")
         = repeat SPACE (Z.to_nat deficit) ++ text
      /\ pad text target_width (lit "center")
         = repeat SPACE (Z.to_nat (deficit / 2)) ++ text
           ++ repeat SPACE (Z.to_nat (deficit - deficit / 2)))
  /\ len text <= len (pad text target_width mode).
Proof.
  intros deficit. split; [|split].
  - apply align_text_fits.
  - intros H. split; [|split].
    + now apply align_text_left.
    + now apply align_text_right.
    + now apply align_text_center.
  - unfold align_text.
    repeat match goal with
           | |- context [if ?b then _ else _] => destruct b
           end;
      rewrite ?len_app; pose proof (len_nonneg text);
      try pose proof (len_nonneg (spaces (target_width - width text)));
      try pose proof
          (len_nonneg (spaces ((target_width - width text) / 2)));
      try pose proof
          (len_nonneg (spaces (target_width - width text
                               - (target_width - width text) / 2)));
      lia.
Qed.

(** C10. Provided the ASCII space is a narrow character (class Na, as
    the Unicode table has it), for each of the modes [left], [right] and
    [center] the result of [align_text] is the text itself between two
    runs of ASCII spaces, and its display width is the greater of the
    target width and the width of the text. *)
Theorem align_text_width (text : str) (target_width : Z) (mode : str) :
  east_asian_width SPACE = EA_Na ->
  mode = lit "left" \/ mode = lit "right" \/ mode = lit "center" ->
  (exists before after : nat,
      pad text target_width mode
      = repeat SPACE before ++ text ++ repeat SPACE after)
  /\ width (pad text target_width mode)
     = Z.max target_width (width text).
Proof.
  intros Hsp Hmode.
  assert (Hnarrow : wide SPACE = false)
    by (unfold is_wide; now rewrite Hsp).
  destruct (Z.le_gt_cases target_width (width text)) as [Hfit | Hpad].
  - rewrite align_text_fits by assumption. split.
    + exists O, O. simpl. now rewrite app_nil_r.
    + lia.
  - destruct Hmode as [-> | [-> | ->]].
    + rewrite align_text_left by assumption. split.
      * exists O, (Z.to_nat (target_width - width text)). reflexivity.
      * rewrite width_app, width_spaces by assumption. lia.
    + rewrite align_text_right by assumption. split.
      * exists (Z.to_nat (target_width - width text)), O.
        simpl. now rewrite app_nil_r.
      * rewrite width_app, width_spaces by assumption. lia.
    + rewrite align_text_center by assumption. split.
      * eexists _, _. reflexivity.
      * rewrite !width_app, !width_spaces by assumption.
        pose proof (Z.div_pos (target_width - width text) 2).
        pose proof (Z.div_le_upper_bound
                      (target_width - width text) 2
                      (target_width - width text)).
        lia.
Qed.

End WidthFacts.

Lemma get_display_width_sum_witness :
  get_display_width eaw_excerpt (lit "平安" ++ lit "ABC") = 7.
Proof.
  destruct (get_display_width_sum eaw_excerpt (lit "平安ABC")
              (lit "平安") (lit "ABC")) as (_ & _ & _ & H).
  rewrite H.
  - reflexivity.
  - repeat (constructor; [(left; reflexivity) || (right; reflexivity)|]);
      constructor.
  - repeat (constructor; [split; discriminate|]); constructor.
Defined.

Lemma align_text_padding_witness :
  align_text eaw_excerpt (lit "N/A") 12 (lit "center")
  = lit "    N/A     ".
Proof.
  destruct (align_text_padding eaw_excerpt (lit "N/A") 12 (lit "center"))
    as (_ & H & _).
  destruct H as (_ & _ & H); [vm_compute; reflexivity|].
  rewrite H. reflexivity.
Defined.

Lemma align_text_width_witness :
  get_display_width eaw_excerpt
    (align_text eaw_excerpt (lit "平安") 12 (lit "left")) = 12.
Proof.
  destruct (align_text_width eaw_excerpt (lit "平安") 12 (lit "left"))
    as (_ & H).
  - reflexivity.
  - left; reflexivity.
  - rewrite H. reflexivity.
Defined.

(* ================================================================= *)
(** ** Splitting and stripping *)

Lemma char_eqb_eq a b : char_eqb a b = true <-> a = b.
Proof. apply N.eqb_eq. Qed.

Lemma char_eqb_neq a b : char_eqb a b = false <-> a <> b.
Proof. apply N.eqb_neq. Qed.

Lemma occurs_cons sep c s :
  occurs sep (c :: s) = starts_with sep (c :: s) || occurs sep s.
Proof. reflexivity. Qed.

Lemma split_go_absent sep s : forall cur,
  sep <> [] -> occurs sep s = false ->
  split_go sep O cur s = [rev cur ++ s].
Proof.
  induction s as [|c s IH]; intros cur Hsep Hocc.
  - simpl. now rewrite app_nil_r.
  - rewrite occurs_cons in Hocc. apply orb_false_iff in Hocc as [Hs Ho].
    cbn [split_go]. rewrite Hs, IH by assumption.
    simpl. now rewrite <- app_assoc.
Qed.

Lemma split_absent sep s :
  sep <> [] -> occurs sep s = false -> split sep s = [s].
Proof. intros. unfold split. now rewrite split_go_absent. Qed.

(** Before the first opening marker. *)
Lemma starts_with_opening_app c t rest :
  starts_with opening (c :: t) = false ->
  starts_with opening (c :: t ++ opening ++ rest) = false.
Proof.
  unfold opening. destruct t as [|d t]; cbn [starts_with app].
  - intros _. replace (char_eqb DQUOTE EQUALS) with false by reflexivity.
    cbn [andb]. apply andb_false_r.
  - intros H. exact H.
Qed.

Lemma split_go_opening ident rest : forall cur,
  occurs opening ident = false ->
  split_go opening O cur (ident ++ opening ++ rest)
  = (rev cur ++ ident) :: split_go opening O [] rest.
Proof.
  induction ident as [|c t IH]; intros cur Hocc.
  - cbn. now rewrite app_nil_r.
  - rewrite occurs_cons in Hocc. apply orb_false_iff in Hocc as [Hs Ho].
    cbn [app split_go].
    rewrite (starts_with_opening_app c t rest Hs), IH by assumption.
    simpl. now rewrite <- app_assoc.
Qed.

Lemma split_opening ident rest :
  occurs opening ident = false ->
  split opening (ident ++ opening ++ rest) = ident :: split opening rest.
Proof. intros H. unfold split. now rewrite split_go_opening. Qed.

(** Splitting at tildes what was joined by tildes. *)
Lemma split_go_tilde_field f rest : forall cur,
  ~ In TILDE f ->
  split_go [TILDE] O cur (f ++ rest)
  = split_go [TILDE] O (rev f ++ cur) rest.
Proof.
  induction f as [|c f IH]; intros cur Hf.
  - reflexivity.
  - cbn [app split_go starts_with].
    assert (Hc : char_eqb TILDE c = false).
    { apply char_eqb_neq. intros Heq. apply Hf. now left. }
    rewrite Hc. cbn [andb]. rewrite IH.
    + simpl. now rewrite <- app_assoc.
    + intros Hin. apply Hf. now right.
Qed.

Lemma split_go_tilde_join fields : forall f cur,
  Forall (fun g => ~ In TILDE g) (f :: fields) ->
  split_go [TILDE] O cur (join [TILDE] (f :: fields))
  = match fields with
    | [] => [rev cur ++ f]
    | _ => (rev cur ++ f) :: fields
    end.
Proof.
  induction fields as [|g fields IH]; intros f cur Hall.
  - cbn [join]. rewrite <- (app_nil_r f) at 1.
    rewrite split_go_tilde_field by now inversion Hall.
    cbn. now rewrite rev_app_distr, rev_involutive.
  - inversion Hall as [|? ? Hf Hrest]; subst.
    change (join [TILDE] (f :: g :: fields))
      with (f ++ [TILDE] ++ join [TILDE] (g :: fields)).
    rewrite split_go_tilde_field by assumption.
    cbn [app split_go starts_with].
    replace (char_eqb TILDE TILDE) with true by reflexivity.
    cbn [andb List.length pred].
    rewrite rev_app_distr, rev_involutive.
    rewrite (IH g [] Hrest). cbn [rev app].
    destruct fields; reflexivity.
Qed.

Lemma split_tilde_join fields :
  fields <> [] ->
  Forall (fun g => ~ In TILDE g) fields ->
  split [TILDE] (join [TILDE] fields) = fields.
Proof.
  intros Hne Hall. destruct fields as [|f fields]; [congruence|].
  unfold split. rewrite split_go_tilde_join by assumption.
  destruct fields; reflexivity.
Qed.

Lemma lstrip_app_all chars x y :
  Forall (fun c => char_in chars c = true) x ->
  lstrip chars (x ++ y) = lstrip chars y.
Proof.
  induction 1 as [|c x Hc _ IH]; [reflexivity|].
  cbn [app lstrip]. now rewrite Hc.
Qed.

Lemma lstrip_app_stop chars x c y :
  char_in chars c = false ->
  lstrip chars (x ++ c :: y) = lstrip chars x ++ c :: y.
Proof.
  intros Hc. induction x as [|h x IH]; cbn [app lstrip].
  - now rewrite Hc.
  - destruct (char_in chars h); [exact IH | reflexivity].
Qed.

Lemma lstrip_incl chars s c : In c (lstrip chars s) -> In c s.
Proof.
  induction s as [|h s IH]; cbn [lstrip]; [auto|].
  destruct (char_in chars h); intros H; [right; auto | exact H].
Qed.

Lemma rstrip_incl chars s c : In c (rstrip chars s) -> In c s.
Proof.
  unfold rstrip. intros H. apply in_rev in H.
  apply lstrip_incl in H. now apply in_rev in H.
Qed.

Lemma rstrip_app_all chars a b :
  Forall (fun c => char_in chars c = true) b ->
  rstrip chars (a ++ b) = rstrip chars a.
Proof.
  intros Hb. unfold rstrip. rewrite rev_app_distr, lstrip_app_all.
  - reflexivity.
  - now apply Forall_rev.
Qed.

Lemma rstrip_app_stop chars a c b :
  char_in chars c = false ->
  rstrip chars (a ++ c :: b) = a ++ c :: rstrip chars b.
Proof.
  intros Hc. unfold rstrip.
  rewrite rev_app_distr. cbn [rev]. rewrite <- app_assoc. cbn [app].
  rewrite lstrip_app_stop by assumption.
  rewrite rev_app_distr. cbn [rev]. rewrite rev_involutive.
  now rewrite <- app_assoc.
Qed.

Lemma join_snoc sep fields l :
  fields <> [] ->
  join sep (fields ++ [l]) = join sep fields ++ sep ++ l.
Proof.
  induction fields as [|f fields IH]; [congruence|]. intros _.
  destruct fields as [|g fields].
  - reflexivity.
  - change (join sep ((f :: g :: fields) ++ [l]))
      with (f ++ sep ++ join sep ((g :: fields) ++ [l])).
    rewrite IH by discriminate.
    change (join sep (f :: g :: fields))
      with (f ++ sep ++ join sep (g :: fields)).
    now rewrite <- !app_assoc.
Qed.

(** What lines 76 and 77 compute from a payload in which the opening
    marker occurs once: the fields, the last one without its trailing
    quotes and semicolons. *)
Lemma fields_of_payload identifier init l :
  init <> [] ->
  occurs opening identifier = false ->
  occurs opening (join [TILDE] (init ++ [l]) ++ closing) = false ->
  Forall (fun f => ~ In TILDE f) (init ++ [l]) ->
  fields_of (payload identifier (init ++ [l]))
  = init ++ [rstrip closing l].
Proof.
  intros Hne Hid Hocc Hall. unfold fields_of, payload.
  rewrite split_opening by assumption.
  rewrite (split_absent opening) by (assumption || discriminate).
  cbn [nth].
  rewrite rstrip_app_all by (repeat constructor).
  rewrite join_snoc by assumption.
  cbn [app]. rewrite rstrip_app_stop by reflexivity.
  change (join [TILDE] init ++ TILDE :: rstrip closing l)
    with (join [TILDE] init ++ [TILDE] ++ rstrip closing l).
  rewrite <- join_snoc by assumption.
  apply split_tilde_join.
  - destruct init; discriminate.
  - apply Forall_app in Hall as [Hinit Hl]. apply Forall_app. split.
    + assumption.
    + constructor; [|constructor]. inversion Hl; subst.
      intros Hin. apply rstrip_incl in Hin. contradiction.
Qed.

Lemma fields_of_payload_nth identifier fields t34 :
  occurs opening identifier = false ->
  occurs opening (join [TILDE] fields ++ closing) = false ->
  Forall (fun f => ~ In TILDE f) fields ->
  nth_error fields 34 = Some t34 ->
  rstrip closing t34 = t34 ->
  forall i, (i <= 34)%nat ->
  nth_error (fields_of (payload identifier fields)) i = nth_error fields i.
Proof.
  intros Hid Hocc Hall H34 Hstrip i Hi.
  assert (Hlen : (34 < List.length fields)%nat)
    by (apply nth_error_Some; congruence).
  assert (Hne : fields <> []) by (destruct fields; [simpl in Hlen; lia | discriminate]).
  set (init := removelast fields) in *.
  set (l := last fields []) in *.
  assert (Hfields : fields = init ++ [l]) by (apply app_removelast_last; exact Hne).
  clearbody init l. subst fields.
  rewrite length_app in Hlen. cbn [List.length] in Hlen.
  rewrite fields_of_payload; try assumption.
  - destruct (Nat.lt_ge_cases i (List.length init)) as [Hlt | Hge].
    + now rewrite !nth_error_app1 by assumption.
    + assert (Hlast : List.length init = 34%nat) by lia.
      rewrite nth_error_app2 in H34 by lia.
      rewrite Hlast in H34. cbn in H34. injection H34 as ->.
      now rewrite Hstrip.
  - destruct init; [simpl in Hlen; lia | discriminate].
Qed.

(* ================================================================= *)
(** ** The parser *)

Section ParserFacts.
Variable float_of_str : str -> option float.

Local Abbreviation parse := (parse_response float_of_str).
Local Abbreviation fetch := (get_stock_price_optimized float_of_str).

Lemma parse_response_fields raw :
  parse raw
  = match nth_error (split opening raw) 1 with
    | Some _ => extract float_of_str (fields_of raw)
    | None => Raise IndexError
    end.
Proof.
  unfold parse_response, fields_of, index, opening, closing.
  destruct (split [EQUALS; DQUOTE] raw) as [|p0 [|p1 ps]]; reflexivity.
Qed.

Lemma index_ok {A} (l : list A) i x :
  nth_error l i = Some x -> index l i = Ok x.
Proof. unfold index. now intros ->. Qed.

Lemma to_float_ok t v :
  float_of_str t = Some v -> to_float float_of_str t = Ok v.
Proof. unfold to_float. now intros ->. Qed.

Lemma extract_ok fields f1 t3 t4 t5 t33 t34 v3 v4 v5 v33 v34 :
  nth_error fields 1 = Some f1 ->
  nth_error fields 3 = Some t3 -> float_of_str t3 = Some v3 ->
  nth_error fields 4 = Some t4 -> float_of_str t4 = Some v4 ->
  nth_error fields 5 = Some t5 -> float_of_str t5 = Some v5 ->
  nth_error fields 33 = Some t33 -> float_of_str t33 = Some v33 ->
  nth_error fields 34 = Some t34 -> float_of_str t34 = Some v34 ->
  extract float_of_str fields
  = Ok {| name := f1; current := v3; close := v4; open := v5;
          high := v33; low := v34 |}.
Proof.
  intros H1 H3 F3 H4 F4 H5 F5 H33 F33 H34 F34. unfold extract.
  rewrite (index_ok _ _ _ H1), (index_ok _ _ _ H3), (index_ok _ _ _ H4),
    (index_ok _ _ _ H5), (index_ok _ _ _ H33), (index_ok _ _ _ H34).
  cbn [rbind].
  rewrite (to_float_ok _ _ F3), (to_float_ok _ _ F4), (to_float_ok _ _ F5),
    (to_float_ok _ _ F33), (to_float_ok _ _ F34).
  reflexivity.
Qed.

Ltac step_extract H :=
  match type of H with
  | context [index ?l ?i] =>
    unfold index at 1 in H;
    let E := fresh "E" in
    destruct (nth_error l i) eqn:E; cbn [rbind] in H
  | context [to_float float_of_str ?t] =>
    unfold to_float at 1 in H;
    let E := fresh "F" in
    destruct (float_of_str t) eqn:E; cbn [rbind] in H
  end.

Lemma extract_inv fields q :
  extract float_of_str fields = Ok q ->
  (34 < List.length fields)%nat
  /\ forall i t, In i [3; 4; 5; 33; 34]%nat ->
                 nth_error fields i = Some t -> float_of_str t <> None.
Proof.
  intros H. unfold extract in H.
  repeat step_extract H; try discriminate.
  split.
  - apply nth_error_Some. congruence.
  - intros i t Hi Ht.
    cbn [In] in Hi.
    destruct Hi as [<- | [<- | [<- | [<- | [<- | []]]]]]; congruence.
Qed.

Lemma extract_raise fields e :
  extract float_of_str fields = Raise e -> e = IndexError \/ e = ValueError.
Proof.
  intros H. unfold extract in H.
  repeat step_extract H; try discriminate; injection H as <-; auto.
Qed.

Lemma parse_raise raw e :
  parse raw = Raise e -> e = IndexError \/ e = ValueError.
Proof.
  rewrite parse_response_fields.
  destruct (nth_error (split opening raw) 1).
  - apply extract_raise.
  - intros [= <-]. now left.
Qed.







(** A payload in which the opening marker occurs once parses to the
    quote read off its fields. *)
Lemma fetch_payload requests_get stock_code identifier fields
      f1 t3 t4 t5 t33 t34 v3 v4 v5 v33 v34 :
  requests_get (url stock_code) = Response 200 (payload identifier fields) ->
  occurs opening identifier = false ->
  occurs opening (join [TILDE] fields ++ closing) = false ->
  Forall (fun f => ~ In TILDE f) fields ->
  nth_error fields 1 = Some f1 ->
  nth_error fields 3 = Some t3 -> float_of_str t3 = Some v3 ->
  nth_error fields 4 = Some t4 -> float_of_str t4 = Some v4 ->
  nth_error fields 5 = Some t5 -> float_of_str t5 = Some v5 ->
  nth_error fields 33 = Some t33 -> float_of_str t33 = Some v33 ->
  nth_error fields 34 = Some t34 -> float_of_str t34 = Some v34 ->
  rstrip closing t34 = t34 ->
  fetch requests_get stock_code
  = ([], Ok (Some {| name := f1; current := v3; close := v4;
                     open := v5; high := v33; low := v34 |})).
Proof.
  intros Hreply Hid Hocc Hall H1 H3 F3 H4 F4 H5 F5 H33 F33 H34 F34 Hstrip.
  pose proof (fields_of_payload_nth identifier fields t34
                Hid Hocc Hall H34 Hstrip) as Hnth.
  unfold get_stock_price_optimized. rewrite Hreply. cbn [Z.eqb Pos.eqb].
  rewrite parse_response_fields.
  unfold payload at 1. rewrite split_opening by assumption.
  rewrite (split_absent opening) by (assumption || discriminate).
  cbn [nth_error].
  rewrite (extract_ok _ f1 t3 t4 t5 t33 t34 v3 v4 v5 v33 v34);
    try assumption; try reflexivity;
    rewrite Hnth by lia; assumption.
Qed.

(** C4, amended. Take a payload made of an identifier, the opening
    marker, at least 35 tilde-free fields joined by tildes, and the
    closing marker, such that the opening marker occurs nowhere else in
    it and the field at position 34 does not end with a quote or a
    semicolon.  If the fields at positions 3, 4, 5, 33 and 34 are
    numeric, parsing returns the quote whose name is field 1 and whose
    current price, previous close, open, high and low are the numbers
    read at positions 3, 4, 5, 33 and 34.  Consequently a quote written
    out as such a payload, with prices printed so that [float] reads
    them back, parses to the same quote. *)
Theorem parse_payload :
  (forall requests_get stock_code identifier fields
          f1 t3 t4 t5 t33 t34 v3 v4 v5 v33 v34,
      requests_get (url stock_code)
      = Response 200 (payload identifier fields) ->
      occurs opening identifier = false ->
      occurs opening (join [TILDE] fields ++ closing) = false ->
      Forall (fun f => ~ In TILDE f) fields ->
      nth_error fields 1 = Some f1 ->
      nth_error fields 3 = Some t3 -> float_of_str t3 = Some v3 ->
      nth_error fields 4 = Some t4 -> float_of_str t4 = Some v4 ->
      nth_error fields 5 = Some t5 -> float_of_str t5 = Some v5 ->
      nth_error fields 33 = Some t33 -> float_of_str t33 = Some v33 ->
      nth_error fields 34 = Some t34 -> float_of_str t34 = Some v34 ->
      rstrip closing t34 = t34 ->
      fetch requests_get stock_code
      = ([], Ok (Some {| name := f1; current := v3; close := v4;
                         open := v5; high := v33; low := v34 |})))
  /\ (forall requests_get stock_code show identifier filler q,
         requests_get (url stock_code)
         = Response 200 (serialize show identifier filler q) ->
         occurs opening identifier = false ->
         occurs opening (join [TILDE] (quote_fields show filler q)
                         ++ closing) = false ->
         Forall (fun f => ~ In TILDE f) (quote_fields show filler q) ->
         float_of_str (show (current q)) = Some (current q) ->
         float_of_str (show (close q)) = Some (close q) ->
         float_of_str (show (open q)) = Some (open q) ->
         float_of_str (show (high q)) = Some (high q) ->
         float_of_str (show (low q)) = Some (low q) ->
         rstrip closing (show (low q)) = show (low q) ->
         fetch requests_get stock_code = ([], Ok (Some q))).
Proof.
  split; [exact fetch_payload|].
  intros requests_get stock_code show identifier filler [n c cl o h l]
         Hreply Hid Hocc Hall Fc Fcl Fo Fh Fl Hstrip.
  cbn [name current close open high low] in *.
  eapply fetch_payload; try eassumption; reflexivity.
Qed.

End ParserFacts.

Lemma tilde_free_check fields :
  forallb (fun f => negb (char_in f TILDE)) fields = true ->
  Forall (fun f => ~ In TILDE f) fields.
Proof.
  intros H. rewrite forallb_forall in H. apply Forall_forall.
  intros f Hf Hin. specialize (H f Hf). apply negb_true_iff in H.
  unfold char_in in H.
  assert (Hex : existsb (char_eqb TILDE) f = true)
    by (apply existsb_exists; exists TILDE; split;
        [exact Hin | reflexivity]).
  congruence.
Qed.



Lemma parse_payload_witness :
  get_stock_price_optimized decimal_float
    (fun _ => Response 200 (payload (lit "v_sh601318") sample_fields))
    (lit "sh601318")
  = ([], Ok (Some sample_quote))
  /\ get_stock_price_optimized decimal_float
       (fun _ => Response 200 (serialize (format_f2 false) (lit "v_sh601318")
                                         (lit "0") sample_quote))
       (lit "sh601318")
     = ([], Ok (Some sample_quote)).
Proof.
  split.
  - refine (proj1 (parse_payload decimal_float)
                  (fun _ => Response 200 _) (lit "sh601318")
                  (lit "v_sh601318") sample_fields
                  _ _ _ _ _ _ _ _ _ _ _
                  eq_refl _ _ _
                  eq_refl eq_refl _ eq_refl _ eq_refl _ eq_refl _ eq_refl
                  _ _);
      try (vm_compute; reflexivity).
    apply tilde_free_check. vm_compute. reflexivity.
  - refine (proj2 (parse_payload decimal_float)
                  (fun _ => Response 200 _) (lit "sh601318")
                  (format_f2 false) (lit "v_sh601318") (lit "0")
                  sample_quote eq_refl _ _ _ _ _ _ _ _ _);
      try (vm_compute; reflexivity).
    apply tilde_free_check. vm_compute. reflexivity.
Defined.

(** C4 as stated fails: a payload of the stated form, with 35 tilde-free
    fields and numeric text at positions 3, 4, 5, 33 and 34, whose name
    field contains the opening marker, does not parse. *)
Lemma marker_in_name_is_unavailable :
  (35 <= List.length marked_fields)%nat
  /\ forallb (fun f => negb (char_in f TILDE)) marked_fields = true
  /\ map (fun i => option_map decimal_float (nth_error marked_fields i))
         [3; 4; 5; 33; 34]%nat
     = map (fun x => Some (Some x))
           [decimal "27.85"; decimal "27.80"; decimal "27.82";
            decimal "28.10"; decimal "27.55"]
  /\ get_stock_price_optimized decimal_float
       (fun _ => Response 200 (payload (lit "v_sh601318") marked_fields))
       (lit "sh601318")
     = ([Diag (ParseError (lit "sh601318")
                          (payload (lit "v_sh601318") marked_fields))],
        Ok None).
Proof. repeat split; vm_compute; reflexivity. Qed.

(* ================================================================= *)
(** ** The order of floats *)

Lemma flt_rank x y :
  is_nan x = false -> is_nan y = false ->
  (flt x y = true <-> lex_lt (rank x) (rank y)).
Proof.
  unfold flt, SFltb, lex_lt.
  destruct x as [sx | sx | | sx mx ex], y as [sy | sy | | sy my ey];
    try discriminate; intros _ _; cbn [SFcompare rank];
    try (destruct sx); try (destruct sy);
    try (split; [discriminate | lia]);
    try (split; [intros _; lia | reflexivity]);
    change (Pos.compare_cont Eq mx my) with (Pos.compare mx my);
    destruct (Z.compare_spec ex ey);
    try destruct (Pos.compare_spec mx my); cbn [CompOpp];
    split; try discriminate; try reflexivity; try lia; intros _; lia.
Qed.

Lemma flt_irrefl x : flt x x = false.
Proof.
  destruct (is_nan x) eqn:Hx.
  - destruct x; try discriminate. reflexivity.
  - destruct (flt x x) eqn:H; [|reflexivity].
    apply flt_rank in H; try assumption.
    unfold lex_lt in H. destruct (rank x) as [[a b] c]. lia.
Qed.

Lemma flt_trans x y z :
  is_nan x = false -> is_nan y = false -> is_nan z = false ->
  flt x y = true -> flt y z = true -> flt x z = true.
Proof.
  intros Hx Hy Hz Hxy Hyz.
  apply flt_rank in Hxy; try assumption.
  apply flt_rank in Hyz; try assumption.
  apply flt_rank; try assumption.
  unfold lex_lt in *.
  destruct (rank x) as [[a1 a2] a3], (rank y) as [[b1 b2] b3],
           (rank z) as [[c1 c2] c3].
  lia.
Qed.

Lemma flt_ntrans x y z :
  is_nan x = false -> is_nan y = false -> is_nan z = false ->
  flt x y = false -> flt y z = false -> flt x z = false.
Proof.
  intros Hx Hy Hz Hxy Hyz.
  destruct (flt x z) eqn:Hxz; [|reflexivity].
  apply flt_rank in Hxz; try assumption.
  assert (Nxy : ~ lex_lt (rank x) (rank y))
    by (intros H; apply flt_rank in H; congruence).
  assert (Nyz : ~ lex_lt (rank y) (rank z))
    by (intros H; apply flt_rank in H; congruence).
  exfalso. unfold lex_lt in *.
  destruct (rank x) as [[a1 a2] a3], (rank y) as [[b1 b2] b3],
           (rank z) as [[c1 c2] c3].
  lia.
Qed.

(* ================================================================= *)
(** ** Sorting *)

Section SortFacts.
Context {A K : Type}.
Variable lt : K -> K -> bool.

(** The keys on which [lt] is a strict weak order. *)
Variable good : K -> Prop.
Hypothesis lt_irrefl : forall a, good a -> lt a a = false.
Hypothesis lt_trans : forall a b c, good a -> good b -> good c ->
  lt a b = true -> lt b c = true -> lt a c = true.
Hypothesis lt_ntrans : forall a b c, good a -> good b -> good c ->
  lt a b = false -> lt b c = false -> lt a c = false.

Local Abbreviation entry := (K * A)%type.
Local Abbreviation good_entry := (fun x : entry => good (fst x)).
Local Abbreviation not_below :=
  (fun x y : entry => lt (fst x) (fst y) = false).

Lemma lt_asym a b : good a -> good b -> lt a b = true -> lt b a = false.
Proof.
  intros Ha Hb Hab. destruct (lt b a) eqn:Hba; [|reflexivity].
  pose proof (lt_trans a b a Ha Hb Ha Hab Hba) as H.
  rewrite lt_irrefl in H by assumption. discriminate.
Qed.

Lemma insert_desc_perm (x : entry) l :
  Permutation (x :: l) (insert_desc lt x l).
Proof.
  induction l as [|y l IH]; cbn [insert_desc].
  - reflexivity.
  - destruct (lt (fst x) (fst y)).
    + rewrite perm_swap. now apply perm_skip.
    + reflexivity.
Qed.

Lemma sort_desc_perm (l : list entry) : Permutation l (sort_desc lt l).
Proof.
  induction l as [|x l IH]; cbn [sort_desc fold_right].
  - reflexivity.
  - rewrite <- insert_desc_perm. now apply perm_skip.
Qed.

Lemma sort_desc_good (l : list entry) :
  Forall good_entry l -> Forall good_entry (sort_desc lt l).
Proof.
  intros H. eapply Permutation_Forall; [apply sort_desc_perm | exact H].
Qed.

Lemma insert_desc_sorted (x : entry) l :
  good (fst x) -> Forall good_entry l ->
  StronglySorted not_below l ->
  StronglySorted not_below (insert_desc lt x l).
Proof.
  intros Hx Hl Hs. induction Hs as [|y l Hs IH Hy]; cbn [insert_desc].
  - repeat constructor.
  - inversion Hl as [|? ? Hgy Hgl]; subst.
    destruct (lt (fst x) (fst y)) eqn:Hxy.
    + constructor; [now apply IH|].
      eapply Permutation_Forall; [apply insert_desc_perm|].
      constructor; [|exact Hy]. now apply lt_asym.
    + constructor; [now constructor|].
      constructor; [exact Hxy|].
      rewrite Forall_forall in Hy, Hgl |- *. intros z Hz.
      apply (lt_ntrans _ (fst y)); auto.
Qed.

Lemma sort_desc_sorted (l : list entry) :
  Forall good_entry l -> StronglySorted not_below (sort_desc lt l).
Proof.
  induction 1 as [|x l Hx Hl IH]; cbn [sort_desc fold_right].
  - constructor.
  - apply insert_desc_sorted; [exact Hx | now apply sort_desc_good | exact IH].
Qed.

Lemma insert_desc_filter k (x : entry) l :
  good k -> good (fst x) -> Forall good_entry l ->
  filter (fun y => same_key lt k (fst y)) (insert_desc lt x l)
  = filter (fun y => same_key lt k (fst y)) (x :: l).
Proof.
  intros Hk Hx Hl. induction Hl as [|y l Hy Hl IH]; [reflexivity|].
  cbn [insert_desc]. destruct (lt (fst x) (fst y)) eqn:Hxy; [|reflexivity].
  cbn [filter] in *. rewrite IH.
  destruct (same_key lt k (fst x)) eqn:Ex; [|reflexivity].
  destruct (same_key lt k (fst y)) eqn:Ey; [|reflexivity].
  exfalso. unfold same_key in Ex, Ey.
  apply andb_true_iff in Ex as [_ Ex], Ey as [Ey _].
  apply negb_true_iff in Ex, Ey.
  rewrite (lt_ntrans _ k _ Hx Hk Hy Ex Ey) in Hxy. discriminate.
Qed.

Lemma sort_desc_stable k (l : list entry) :
  good k -> Forall good_entry l ->
  filter (fun y => same_key lt k (fst y)) (sort_desc lt l)
  = filter (fun y => same_key lt k (fst y)) l.
Proof.
  intros Hk. induction 1 as [|x l Hx Hl IH]; [reflexivity|].
  cbn [sort_desc fold_right].
  rewrite insert_desc_filter;
    [| assumption | assumption | now apply sort_desc_good].
  cbn [filter]. fold (sort_desc lt l). now rewrite IH.
Qed.

(** The decorated list pairs each element with its key. *)
Lemma decorate_ok (key : A -> result K) l kl :
  decorate key l = Ok kl ->
  map snd kl = l /\ Forall (fun p => key (snd p) = Ok (fst p)) kl.
Proof.
  revert kl. induction l as [|x l IH]; intros kl H; cbn [decorate] in H.
  - injection H as <-. split; constructor.
  - destruct (key x) as [k|] eqn:Hk; [|discriminate]. cbn [rbind] in H.
    destruct (decorate key l) as [kl'|]; [|discriminate]. cbn [rbind] in H.
    injection H as <-. destruct (IH kl' eq_refl) as [Hm Hf].
    split.
    + cbn. now rewrite Hm.
    + constructor; [exact Hk | exact Hf].
Qed.

Lemma decorate_total (key : A -> result K) l :
  Forall (fun x => exists k, key x = Ok k) l ->
  exists kl, decorate key l = Ok kl.
Proof.
  induction 1 as [|x l [k Hk] _ [kl IH]]; cbn [decorate].
  - now exists [].
  - rewrite Hk, IH. cbn [rbind]. now eexists.
Qed.

(** A key function that raises on some element makes the whole call
    raise. *)
Lemma decorate_raises (key : A -> result K) l x e :
  In x l -> key x = Raise e -> exists e', decorate key l = Raise e'.
Proof.
  induction l as [|y l IH]; intros Hin Hx; [contradiction|].
  cbn [decorate]. destruct (key y) as [k|e0] eqn:Hy.
  - destruct Hin as [-> | Hin]; [congruence|]. cbn [rbind].
    destruct (IH Hin Hx) as [e' ->]. now exists e'.
  - now exists e0.
Qed.

End SortFacts.

(* ================================================================= *)
(** ** The sort step of [run] *)

Lemma same_sort_key_filter k kl :
  Forall (fun p : float * option stock_info => sort_key (snd p) = Ok (fst p))
         kl ->
  filter (same_sort_key k) (map snd kl)
  = map snd (filter (fun p => same_key flt k (fst p)) kl).
Proof.
  induction 1 as [|p kl Hp _ IH]; [reflexivity|].
  cbn [map filter]. unfold same_sort_key at 1. rewrite Hp, IH.
  now destruct (same_key flt k (fst p)).
Qed.

Lemma descending_map kl :
  Forall (fun p : float * option stock_info => sort_key (snd p) = Ok (fst p))
         kl ->
  StronglySorted (fun x y => flt (fst x) (fst y) = false) kl ->
  StronglySorted descending (map snd kl).
Proof.
  intros Hkeys Hs. induction Hs as [|p kl Hs IH Hp]; cbn [map].
  - constructor.
  - inversion Hkeys as [|? ? Hk Hrest]; subst.
    constructor; [now apply IH|].
    rewrite Forall_forall in Hp, Hrest |- *.
    intros info Hin. apply in_map_iff in Hin as (q & <- & Hq).
    intros ka kb Ha Hb. rewrite Hk in Ha. rewrite (Hrest q Hq) in Hb.
    injection Ha as <-. injection Hb as <-. now apply Hp.
Qed.

(** C6, amended. On a list of parsed quotes whose sort keys are all
    computed (no previous close is zero) and are numbers (none is nan),
    the sort step returns a rearrangement of the list in descending
    order of the sort key, and entries with equal sort keys keep their
    relative order.  The sort key is the change ratio
    [(current - close) / close], of which the change-percent is the
    hundredfold; the order and the stability are those of the ratio, not
    of the percent.  Quotes with ratios 0.05, -0.02, 0.05, 0.0, whose
    change-percents are +5.0, -2.0, +5.0, 0.0, come out as the two +5.0
    ones in their original order, then the 0.0 one, then the -2.0
    one. *)
Theorem sort_is_stable_descending :
  (forall infos : list (option stock_info),
      Forall (fun info => exists q k, info = Some q /\ sort_key info = Ok k
                                      /\ is_nan k = false) infos ->
      exists ordered,
        sorted_reverse flt sort_key infos = Ok ordered
        /\ Permutation infos ordered
        /\ StronglySorted descending ordered
        /\ forall k, is_nan k = false ->
                     filter (same_sort_key k) ordered
                     = filter (same_sort_key k) infos)
  /\ map change_percent [Some up5; Some down2; Some up5'; Some flat]
     = [Ok (decimal "5.0"); Ok (decimal "-2.0"); Ok (decimal "5.0");
        Ok (decimal "0.0")]
  /\ sorted_reverse flt sort_key [Some up5; Some down2; Some up5'; Some flat]
     = Ok [Some up5; Some up5'; Some flat; Some down2].
Proof.
  split; [|split; vm_compute; reflexivity].
  intros infos Hall.
  destruct (decorate_total sort_key infos) as [kl Hkl].
  { eapply Forall_impl; [|exact Hall].
    intros info (q & k & _ & Hk & _). now exists k. }
  destruct (decorate_ok sort_key infos kl Hkl) as [Hmap Hkeys].
  assert (Hgood : Forall (fun p : float * option stock_info =>
                            is_nan (fst p) = false) kl).
  { rewrite <- Hmap in Hall. rewrite Forall_forall in Hall, Hkeys |- *.
    intros p Hp. destruct (Hall (snd p)) as (q & k & _ & Hk & Hnan).
    - now apply in_map.
    - rewrite (Hkeys p Hp) in Hk. now injection Hk as ->. }
  assert (Hskeys : Forall (fun p : float * option stock_info =>
                             sort_key (snd p) = Ok (fst p))
                          (sort_desc flt kl)).
  { eapply Permutation_Forall; [apply sort_desc_perm | exact Hkeys]. }
  exists (map snd (sort_desc flt kl)). split; [|split; [|split]].
  - unfold sorted_reverse. now rewrite Hkl.
  - rewrite <- Hmap. apply Permutation_map, sort_desc_perm.
  - apply descending_map; [exact Hskeys|].
    apply (sort_desc_sorted flt (fun k => is_nan k = false)).
    + intros a _. apply flt_irrefl.
    + intros a b c. apply flt_trans.
    + intros a b c. apply flt_ntrans.
    + exact Hgood.
  - intros k Hk. rewrite <- Hmap.
    rewrite !same_sort_key_filter by assumption.
    f_equal.
    apply (sort_desc_stable flt (fun k => is_nan k = false)).
    + intros a b c. apply flt_ntrans.
    + exact Hk.
    + exact Hgood.
Qed.

(** C6 as stated fails: two quotes with the same change-percent, +5.0,
    whose ratios differ in the last place, do not keep their order.
    With change-percents +5.0, -2.0, +5.0, 0.0 in this order, the second
    +5.0 entry comes out before the first. *)
Lemma equal_percent_order_not_kept :
  map change_percent
      [Some up5_below; Some down2; Some up5_above; Some flat]
  = [Ok (decimal "5.0"); Ok (decimal "-2.0"); Ok (decimal "5.0");
     Ok (decimal "0.0")]
  /\ sorted_reverse flt sort_key
       [Some up5_below; Some down2; Some up5_above; Some flat]
     = Ok [Some up5_above; Some up5_below; Some flat; Some down2].
Proof. split; vm_compute; reflexivity. Qed.

Lemma sort_is_stable_descending_witness :
  exists ordered,
    sorted_reverse flt sort_key [Some sample_quote; Some flat; Some up5]
    = Ok ordered
    /\ Permutation [Some sample_quote; Some flat; Some up5] ordered.
Proof.
  destruct (proj1 sort_is_stable_descending
                  [Some sample_quote; Some flat; Some up5])
    as (ordered & Hs & Hp & _).
  - repeat (constructor;
            [eexists _, _; split; [reflexivity|];
             split; vm_compute; reflexivity|]).
    constructor.
  - exists ordered. split; assumption.
Defined.

(* ================================================================= *)
(** ** The renderer and the refresh cycle *)

Lemma fle_zero_not_below x : fle fzero x = true -> flt x fzero = false.
Proof. destruct x as [s | s | | s m e]; try destruct s; now cbn. Qed.

Lemma flt_zero_not_above x : flt x fzero = true -> fle fzero x = false.
Proof. destruct x as [s | s | | s m e]; try destruct s; now cbn. Qed.

Lemma sort_key_raises info e :
  sort_key info = Raise e -> e = TypeError \/ e = ZeroDivisionError.
Proof.
  destruct info as [q|]; cbn [sort_key]; [|intros [= <-]; now left].
  unfold fdiv. destruct (is_zero (close q)); intros [= <-]. now right.
Qed.

Lemma decorate_sort_key_raises infos e :
  decorate sort_key infos = Raise e ->
  e = TypeError \/ e = ZeroDivisionError.
Proof.
  induction infos as [|info infos IH]; cbn [decorate]; [discriminate|].
  destruct (sort_key info) as [k|e0] eqn:Hk; cbn [rbind].
  - destruct (decorate sort_key infos); cbn [rbind]; [discriminate|].
    intros [= <-]. now apply IH.
  - intros [= <-]. now apply sort_key_raises in Hk.
Qed.

Section CycleFacts.
Variable east_asian_width : char -> ea_width.
Variable float_of_str : str -> option float.

Local Abbreviation fetch := (get_stock_price_optimized float_of_str).
Local Abbreviation cycle := (refresh east_asian_width float_of_str).
Local Abbreviation show_info := (display_stock_info east_asian_width).
Local Abbreviation header_line := (one_line east_asian_width header).

(** A cycle in which the sort step raises ends there: after the cursor
    move, the header and what the fetches printed. *)
Lemma refresh_sort_raises stock_codes w out infos e :
  collect stock_codes (fetch (requests_get w)) = (out, Ok infos) ->
  sorted_reverse flt sort_key infos = Raise e ->
  cycle stock_codes w
  = (Text (ESC :: lit "[;H") :: Line header_line :: out, Raise e).
Proof.
  intros Hc Hs. unfold refresh, display_one_line, print, emit, lift.
  cbn [bind app]. rewrite Hc. cbn [bind]. rewrite Hs. cbn [bind app].
  now rewrite app_nil_r.
Qed.

Lemma refresh_bad_outcome stock_codes w out infos info e0 :
  collect stock_codes (fetch (requests_get w)) = (out, Ok infos) ->
  In info infos -> sort_key info = Raise e0 ->
  exists e,
    (e = TypeError \/ e = ZeroDivisionError)
    /\ cycle stock_codes w
       = (Text (ESC :: lit "[;H") :: Line header_line :: out, Raise e).
Proof.
  intros Hc Hin Hk.
  destruct (decorate_raises sort_key infos info e0 Hin Hk) as [e He].
  exists e. split.
  - now apply decorate_sort_key_raises in He.
  - eapply refresh_sort_raises; [exact Hc|].
    unfold sorted_reverse. now rewrite He.
Qed.

(** C9. A rendered quote has a non-zero previous close.  Its change
    column is the colour code, the signed change, the signed percent in
    brackets, the arrow and the reset code.  When the change is zero or
    more the colour code is ESC[31m and the arrow points up; when the
    change is below zero the colour code is ESC[32m and the arrow points
    down.  So a change of 0 counts as up and a change of -0.01 as
    down. *)
Theorem direction_of_change (q : stock_info) (stock_code : str)
  (ratio : float) :
  fdiv (fsub (current q) (close q)) (close q) = Ok ratio ->
  let change := fsub (current q) (close q) in
  let change_percent := fmul ratio (float_of_int 100) in
  (exists color arrow,
      show_info (Some q) stock_code
      = display_one_line east_asian_width
          {| code_text := stock_code;
             name_text := name q;
             current_text := format_f2 false (current q);
             change_text :=
               color ++ rjust 7 (format_f2 true change) ++ [SPACE]
               ++ (lit "(" ++ rjust 6 (format_f2 true change_percent)
                   ++ lit "%)")
               ++ arrow ++ ESC :: lit "[0m";
             high_text := rjust 7 (format_f2 false (high q));
             low_text := rjust 7 (format_f2 false (low q)) |}
      /\ (fle fzero change = true ->
          color = ESC :: lit "[31m" /\ arrow = lit "↑")
      /\ (flt change fzero = true ->
          color = ESC :: lit "[32m" /\ arrow = lit "↓"))
  /\ (color_code fzero = ESC :: lit "[31m" /\ symbol fzero = lit "↑")
  /\ (color_code (decimal "-0.01") = ESC :: lit "[32m"
      /\ symbol (decimal "-0.01") = lit "↓").
Proof.
  intros Hratio change change_percent.
  split; [|split; split; reflexivity].
  exists (color_code change), (symbol change). split; [|split].
  - subst change change_percent.
    unfold display_stock_info. rewrite Hratio.
    unfold lift, display_one_line, print, change_str, reset_code.
    cbn [bind app]. reflexivity.
  - intros Hup. unfold color_code, symbol.
    now rewrite Hup, (fle_zero_not_below _ Hup).
  - intros Hdown. unfold color_code, symbol.
    now rewrite Hdown, (flt_zero_not_above _ Hdown).
Qed.

(** C2, amended. A parsed quote whose previous close is zero stays a
    valid outcome: nothing turns it into an absent one.  The sort key
    and the change-percent both perform the division, which raises
    [ZeroDivisionError].  A cycle that fetched such a quote ends with an
    exception raised by the sort step, after the header and what the
    fetches printed, and renders no row; so no infinity and no [nan]
    from this division reaches the sort or the output. *)
Theorem zero_close_raises (q : stock_info) :
  is_zero (close q) = true ->
  sort_key (Some q) = Raise ZeroDivisionError
  /\ (forall stock_code,
         show_info (Some q) stock_code = ([], Raise ZeroDivisionError))
  /\ (forall stock_codes w out infos,
         collect stock_codes (fetch (requests_get w)) = (out, Ok infos) ->
         In (Some q) infos ->
         exists e,
           (e = TypeError \/ e = ZeroDivisionError)
           /\ cycle stock_codes w
              = (Text (ESC :: lit "[;H") :: Line header_line :: out,
                 Raise e)).
Proof.
  intros Hz.
  assert (Hkey : sort_key (Some q) = Raise ZeroDivisionError)
    by (cbn [sort_key]; unfold fdiv; now rewrite Hz).
  split; [exact Hkey|]. split.
  - intros stock_code. unfold display_stock_info, fdiv. now rewrite Hz.
  - intros stock_codes w out infos Hc Hin.
    eapply refresh_bad_outcome; eassumption.
Qed.

End CycleFacts.

Lemma direction_of_change_witness :
  color_code fzero = ESC :: lit "[31m" /\ symbol fzero = lit "↑".
Proof.
  refine (proj1 (proj2 (direction_of_change eaw_excerpt sample_quote
                          (lit "sh601318")
                          (S754_finite false 8294399313718441 (-62)) _))).
  vm_compute. reflexivity.
Defined.

Lemma zero_close_raises_witness :
  sort_key (Some zero_close_quote) = Raise ZeroDivisionError
  /\ exists e,
       refresh eaw_excerpt decimal_float [lit "sh601318"] world_zero_close
       = ([Text (ESC :: lit "[;H"); Line (one_line eaw_excerpt header)],
          Raise e).
Proof.
  destruct (zero_close_raises eaw_excerpt decimal_float zero_close_quote)
    as (Hkey & _ & Hcycle).
  - vm_compute. reflexivity.
  - split; [exact Hkey|].
    destruct (Hcycle [lit "sh601318"] world_zero_close []
                     [Some zero_close_quote]) as (e & _ & He).
    + vm_compute. reflexivity.
    + left. reflexivity.
    + exists e. exact He.
Defined.

(** C2 as stated fails: a quote parsed with a previous close of zero is
    a valid outcome, not an absent one, and the sort key of the cycle
    performs the division, which raises. *)
Lemma zero_close_is_not_unavailable :
  get_stock_price_optimized decimal_float (requests_get world_zero_close)
    (lit "sh601318")
  = ([], Ok (Some zero_close_quote))
  /\ is_zero (close zero_close_quote) = true
  /\ refresh eaw_excerpt decimal_float [lit "sh601318"] world_zero_close
     = ([Text (ESC :: lit "[;H"); Line (one_line eaw_excerpt header)],
        Raise ZeroDivisionError).
Proof. repeat split; vm_compute; reflexivity. Qed.

(** C1 fails on the code. With two codes, the request for the first
    timing out and the second quoted, both codes are fetched and the
    outcomes are [None] and a quote; the sort key then subscripts [None]
    and raises [TypeError]: the cycle ends after the header and the
    diagnostic, with no row rendered, and the exception leaves [run].
    Rendering itself does handle [None], by the placeholder row. *)
Theorem unavailable_outcome_aborts_cycle :
  collect two_codes
    (get_stock_price_optimized decimal_float (requests_get world_timeout))
  = ([Diag (TimedOut (lit "sh601318"))], Ok [None; Some sample_quote])
  /\ refresh eaw_excerpt decimal_float two_codes world_timeout
     = ([Text (ESC :: lit "[;H"); Line (one_line eaw_excerpt header);
         Diag (TimedOut (lit "sh601318"))],
        Raise TypeError)
  /\ run eaw_excerpt decimal_float two_codes [world_timeout]
     = ([Line (ESC :: lit "[2J"); Text (ESC :: lit "[;H");
         Line (one_line eaw_excerpt header);
         Diag (TimedOut (lit "sh601318"))],
        Raise TypeError)
  /\ display_stock_info eaw_excerpt None (lit "sh601318")
     = ([Line (placeholder_line (lit "sh601318"))], Ok tt).
Proof. repeat split; vm_compute; reflexivity. Qed.

(** C3 fails on the code. In the scenario (first code quoted at 27.85
    over 27.80, second reply unparsable) the cycle prints the header and
    the diagnostic and then raises [TypeError] in the sort step: no data
    row is rendered.  When both codes are quoted, both rows carry the
    last configured code, and a quote row measures 84 by
    [get_display_width], the escape sequences included, against 75 for
    the header and for the placeholder row. *)
Theorem scenario_renders_no_row :
  refresh eaw_excerpt decimal_float two_codes world_no_match
  = ([Text (ESC :: lit "[;H"); Line (one_line eaw_excerpt header);
      Diag (ParseError (lit "sz000001") no_match)],
     Raise TypeError)
  /\ refresh eaw_excerpt decimal_float two_codes world_both
     = ([Text (ESC :: lit "[;H"); Line (one_line eaw_excerpt header);
         Line (sample_row (lit "sz000001"));
         Line (sample_row (lit "sz000001"));
         Line (lit "最后刷新时间:  2024-01-02 09:30:00.000000")],
        Ok tt)
  /\ map (get_display_width eaw_excerpt)
         [one_line eaw_excerpt header; sample_row (lit "sh601318");
          placeholder_line (lit "sz000001")]
     = [75; 84; 75].
Proof. split; [|split]; vm_compute; reflexivity. Qed.

(* ================================================================= *)
(** ** Further properties: the layout of a line *)

Section LayoutFacts.
Variable east_asian_width : char -> ea_width.

Local Abbreviation width := (get_display_width east_asian_width).
Local Abbreviation wide := (is_wide east_asian_width).
Local Abbreviation pad := (align_text east_asian_width).
Local Abbreviation line := (one_line east_asian_width).

Lemma width_lower s : len s <= width s.
Proof.
  unfold len. induction s as [|c s IH].
  - rewrite width_nil. simpl. lia.
  - rewrite width_cons. cbn [List.length]. destruct (wide c); lia.
Qed.

Lemma width_upper s : width s <= 2 * len s.
Proof.
  unfold len. induction s as [|c s IH].
  - rewrite width_nil. simpl. lia.
  - rewrite width_cons. cbn [List.length]. destruct (wide c); lia.
Qed.

(** X1. The display width of a text is at least its number of
    characters and at most twice that number, whatever the width
    table. *)
Theorem display_width_bounds (s : str) :
  len s <= width s <= 2 * len s.
Proof. split; [apply width_lower | apply width_upper]. Qed.

Lemma len_rjust w s : len (rjust w s) = Z.max w (len s).
Proof.
  unfold rjust. rewrite len_app, len_spaces.
  pose proof (len_nonneg s). lia.
Qed.

Lemma space_is_narrow :
  east_asian_width SPACE = EA_Na -> wide SPACE = false.
Proof. intros H. unfold is_wide. now rewrite H. Qed.

(** After padding, a text is either unchanged or exactly as wide as the
    target. *)
Lemma align_text_unchanged_or_filled text w mode :
  east_asian_width SPACE = EA_Na ->
  pad text w mode = text \/ width (pad text w mode) = w.
Proof.
  intros Hsp. apply space_is_narrow in Hsp.
  destruct (Z.le_gt_cases w (width text)) as [Hfit | Hpad].
  - left. now apply align_text_fits.
  - unfold align_text.
    destruct (Z.leb_spec (w - width text) 0) as [|_]; [lia|].
    destruct (str_eqb mode (lit "left")).
    { right. rewrite width_app, width_spaces by assumption. lia. }
    destruct (str_eqb mode (lit "right")).
    { right. rewrite width_app, width_spaces by assumption. lia. }
    destruct (str_eqb mode (lit "center")); [|now left].
    right. rewrite !width_app, !width_spaces by assumption.
    pose proof (Z.div_pos (w - width text) 2).
    pose proof (Z.div_le_upper_bound (w - width text) 2 (w - width text)).
    lia.
Qed.

Lemma width_left text w :
  east_asian_width SPACE = EA_Na ->
  width (pad text w (lit "left")) = Z.max w (width text).
Proof.
  intros Hsp. apply space_is_narrow in Hsp.
  destruct (Z.le_gt_cases w (width text)) as [Hfit | Hpad].
  - rewrite align_text_fits by assumption. lia.
  - rewrite align_text_left, width_app, width_spaces by assumption. lia.
Qed.

Lemma width_right text w :
  east_asian_width SPACE = EA_Na ->
  width (pad text w (lit "right")) = Z.max w (width text).
Proof.
  intros Hsp. apply space_is_narrow in Hsp.
  destruct (Z.le_gt_cases w (width text)) as [Hfit | Hpad].
  - rewrite align_text_fits by assumption. lia.
  - rewrite align_text_right, width_app, width_spaces by assumption. lia.
Qed.

Lemma width_one_space :
  east_asian_width SPACE = EA_Na -> width [SPACE] = 1.
Proof.
  intros Hsp. rewrite width_cons, width_nil, (space_is_narrow Hsp). lia.
Qed.

Lemma one_line_width_sum d :
  east_asian_width SPACE = EA_Na ->
  width (line d)
  = Z.max code_width (width (code_text d))
    + Z.max name_width (width (name_text d))
    + Z.max price_width (width (current_text d))
    + Z.max change_width (width (change_text d))
    + Z.max high_width (width (high_text d))
    + Z.max low_width (width (low_text d)) + 5.
Proof.
  intros Hsp. unfold one_line.
  rewrite !width_app, !width_left, !width_right, !width_one_space
    by assumption.
  lia.
Qed.

Lemma header_width :
  east_asian_width SPACE = EA_Na -> width (line header) = 75.
Proof.
  intros Hsp. rewrite one_line_width_sum by assumption.
  cbn [header code_text name_text current_text change_text high_text
       low_text].
  unfold code_width, name_width, price_width, change_width, high_width,
    low_width.
  pose proof (width_upper (lit "代码")). pose proof (width_upper (lit "名称")).
  pose proof (width_upper (lit "当前")). pose proof (width_upper (lit "涨跌")).
  pose proof (width_upper (lit "最高")). pose proof (width_upper (lit "最低")).
  change (len (lit "代码")) with 2 in *. change (len (lit "名称")) with 2 in *.
  change (len (lit "当前")) with 2 in *. change (len (lit "涨跌")) with 2 in *.
  change (len (lit "最高")) with 2 in *. change (len (lit "最低")) with 2 in *.
  lia.
Qed.

(** X2. Provided the ASCII space is narrow, the display width of a line
    built by [display_one_line] is the sum over the six columns of the
    greater of the column width and the width of the field, plus the
    five separating spaces.  A line whose fields all fit is 75 wide, and
    so is the header, under any width table. *)
Theorem one_line_width (d : str_dict) :
  east_asian_width SPACE = EA_Na ->
  width (line d)
  = Z.max 10 (width (code_text d)) + Z.max 12 (width (name_text d))
    + Z.max 10 (width (current_text d))
    + Z.max 18 (width (change_text d))
    + Z.max 10 (width (high_text d)) + Z.max 10 (width (low_text d)) + 5
  /\ (width (code_text d) <= 10 -> width (name_text d) <= 12 ->
      width (current_text d) <= 10 -> width (change_text d) <= 18 ->
      width (high_text d) <= 10 -> width (low_text d) <= 10 ->
      width (line d) = 75)
  /\ width (line header) = 75.
Proof.
  intros Hsp. split; [|split].
  - now apply one_line_width_sum.
  - intros. rewrite one_line_width_sum by assumption.
    unfold code_width, name_width, price_width, change_width, high_width,
      low_width. lia.
  - now apply header_width.
Qed.

Lemma len_change_str change change_percent :
  27 <= len (change_str change change_percent).
Proof.
  unfold change_str. rewrite !len_app, !len_rjust.
  assert (Hc : len (color_code change) = 5)
    by (unfold color_code; now destruct (flt change fzero)).
  assert (Hs : len (symbol change) = 1)
    by (unfold symbol; now destruct (fle fzero change)).
  rewrite Hc, Hs.
  change (len [SPACE]) with 1. change (len (lit "(")) with 1.
  change (len (lit "%)")) with 2. change (len reset_code) with 4.
  lia.
Qed.

(** X3. The change column is never padded: the change text, escape
    sequences included, has at least 27 characters, more than the column
    width of 18, so [align_text] returns it as it is.  Hence, when the
    ASCII space is narrow, a quote row measures at least 84 by
    [get_display_width], against 75 for the header. *)
Theorem change_column_never_padded (change change_percent : float)
  (q : stock_info) (stock_code : str) :
  pad (change_str change change_percent) change_width (lit "right")
  = change_str change change_percent
  /\ (east_asian_width SPACE = EA_Na ->
      84 <= width (quote_row east_asian_width q stock_code)
      /\ width (line header) < width (quote_row east_asian_width q stock_code)).
Proof.
  split.
  - apply align_text_fits. unfold change_width.
    pose proof (len_change_str change change_percent).
    pose proof (width_lower (change_str change change_percent)). lia.
  - intros Hsp.
    assert (H84 : 84 <= width (quote_row east_asian_width q stock_code)).
    { unfold quote_row. rewrite one_line_width_sum by assumption.
      cbn [code_text name_text current_text change_text high_text low_text].
      unfold code_width, name_width, price_width, change_width, high_width,
        low_width.
      match goal with
      | |- context [width (change_str ?c ?p)] =>
        pose proof (len_change_str c p);
        pose proof (width_lower (change_str c p))
      end.
      lia. }
    split; [exact H84|].
    rewrite header_width by assumption. lia.
Qed.

Lemma narrow_rjust w s :
  wide SPACE = false ->
  Forall (fun c => wide c = false) s ->
  Forall (fun c => wide c = false) (rjust w s).
Proof.
  intros Hsp Hs. unfold rjust, spaces. apply Forall_app. split.
  - apply Forall_forall. intros c Hc. apply repeat_spec in Hc. now subst.
  - exact Hs.
Qed.

(** X4. The placeholder row has [max 10 (len code) + 65] characters.
    When the printable ASCII characters are narrow and the code is made
    of narrow characters, this is also its display width, so for a code
    of at most ten characters the placeholder row is as wide as the
    header. *)
Theorem placeholder_row_width (stock_code : str) :
  len (placeholder_line stock_code) = Z.max 10 (len stock_code) + 65
  /\ ((forall c, (32 <= c < 127)%N -> east_asian_width c = EA_Na) ->
      Forall (fun c => wide c = false) stock_code ->
      width (placeholder_line stock_code) = Z.max 10 (len stock_code) + 65
      /\ (len stock_code <= 10 ->
          width (placeholder_line stock_code) = width (line header))).
Proof.
  assert (Hlen : len (placeholder_line stock_code)
                 = Z.max 10 (len stock_code) + 65).
  { unfold placeholder_line. rewrite !len_app, !len_rjust.
    change (len [SPACE]) with 1. change (len (lit "N/A")) with 3. lia. }
  split; [exact Hlen|].
  intros Hascii Hcode.
  assert (Hna : forall c, (32 <= c < 127)%N -> wide c = false).
  { intros c Hc. unfold is_wide. now rewrite (Hascii c Hc). }
  assert (Hw : width (placeholder_line stock_code)
               = len (placeholder_line stock_code)).
  { assert (Hspace : wide SPACE = false) by (apply Hna; unfold SPACE; lia).
    assert (Hna3 : Forall (fun c => wide c = false) (lit "N/A"))
      by (change (lit "N/A") with [78; 47; 65]%N;
          repeat (constructor; [apply Hna; lia|]); constructor).
    apply width_narrow. unfold placeholder_line.
    repeat match goal with
           | |- Forall _ (_ ++ _) => apply Forall_app; split
           | |- Forall _ (rjust _ _) => now apply narrow_rjust
           | |- Forall _ [SPACE] => now constructor
           end. }
  split; [lia|].
  intros Hshort. rewrite header_width.
  - lia.
  - apply Hascii. unfold SPACE. lia.
Qed.

(** X5. Provided the ASCII space is narrow, aligning is idempotent:
    aligning an aligned text again to the same width, in any mode,
    changes nothing. *)
Theorem align_text_idempotent (text : str) (target_width : Z) (mode : str) :
  east_asian_width SPACE = EA_Na ->
  pad (pad text target_width mode) target_width mode
  = pad text target_width mode.
Proof.
  intros Hsp.
  destruct (align_text_unchanged_or_filled text target_width mode Hsp)
    as [Hsame | Hfilled].
  - now rewrite !Hsame.
  - apply align_text_fits. lia.
Qed.

End LayoutFacts.

Lemma one_line_width_witness :
  get_display_width eaw_excerpt
    (one_line eaw_excerpt
       {| code_text := lit "sh601318"; name_text := lit "中国平安";
          current_text := lit "27.85"; change_text := lit "N/A";
          high_text := lit "  28.10"; low_text := lit "  27.55" |})
  = 75.
Proof.
  refine (proj1 (proj2 (one_line_width eaw_excerpt _ eq_refl)) _ _ _ _ _ _);
    vm_compute; discriminate.
Defined.

Lemma change_column_never_padded_witness :
  84 <= get_display_width eaw_excerpt
          (quote_row eaw_excerpt sample_quote (lit "sh601318")).
Proof.
  exact (proj1 (proj2 (change_column_never_padded eaw_excerpt fzero fzero
                         sample_quote (lit "sh601318")) eq_refl)).
Defined.

Lemma placeholder_row_width_witness :
  get_display_width eaw_excerpt (placeholder_line (lit "sz000001"))
  = get_display_width eaw_excerpt (one_line eaw_excerpt header).
Proof.
  refine (proj2 (proj2 (placeholder_row_width eaw_excerpt (lit "sz000001"))
                       _ _) _).
  - intros c Hc. unfold eaw_excerpt.
    destruct (N.ltb_spec c 32); [lia|].
    destruct (N.ltb_spec c 127); [reflexivity | lia].
  - repeat (constructor; [reflexivity|]). constructor.
  - vm_compute. discriminate.
Defined.

Lemma align_text_idempotent_witness :
  align_text eaw_excerpt
    (align_text eaw_excerpt (lit "平安") 12 (lit "center")) 12 (lit "center")
  = align_text eaw_excerpt (lit "平安") 12 (lit "center").
Proof.
  exact (align_text_idempotent eaw_excerpt (lit "平安") 12 (lit "center")
           eq_refl).
Defined.

(* ================================================================= *)
(** ** Further properties: fetching *)

Section FetchFacts.
Variable float_of_str : str -> option float.

Local Abbreviation parse := (parse_response float_of_str).
Local Abbreviation fetch := (get_stock_price_optimized float_of_str).

(** What [get_stock_price_optimized] does, reply by reply. *)
Lemma fetch_cases requests_get stock_code :
  (exists raw q,
      requests_get (url stock_code) = Response 200 raw
      /\ parse raw = Ok q
      /\ fetch requests_get stock_code = ([], Ok (Some q)))
  \/ (requests_get (url stock_code) <> Interrupted
      /\ exists d, fetch requests_get stock_code = ([Diag d], Ok None))
  \/ (requests_get (url stock_code) = Interrupted
      /\ fetch requests_get stock_code = ([], Raise KeyboardInterrupt)).
Proof.
  unfold get_stock_price_optimized.
  destruct (requests_get (url stock_code)) as [status raw | | | |] eqn:Hreply.
  - destruct (Z.eqb_spec status 200) as [-> | Hstatus].
    + destruct (parse raw) as [q | e] eqn:Hparse.
      * left. now exists raw, q.
      * right. left. split; [discriminate|].
        destruct (parse_raise _ _ _ Hparse) as [-> | ->]; now eexists.
    + right. left. split; [discriminate|]. now eexists.
  - right. left. split; [discriminate|]. now eexists.
  - right. left. split; [discriminate|]. now eexists.
  - right. left. split; [discriminate|]. now eexists.
  - right. right. now split.
Qed.

Lemma fetch_some_inv requests_get stock_code out q :
  fetch requests_get stock_code = (out, Ok (Some q)) ->
  out = []
  /\ exists raw, requests_get (url stock_code) = Response 200 raw
                 /\ parse raw = Ok q.
Proof.
  intros H.
  destruct (fetch_cases requests_get stock_code)
    as [(raw & q0 & Hreply & Hparse & Hf) | [(Hni & d & Hf) | (Hi & Hf)]];
    rewrite Hf in H; try discriminate.
  injection H as <- <-. split; [reflexivity|]. now exists raw.
Qed.



(** The fetch loop of lines 207 to 210. *)
Lemma collect_cons requests_get c codes :
  collect (c :: codes) (fetch requests_get)
  = match fetch requests_get c with
    | (o, Ok info) =>
      match collect codes (fetch requests_get) with
      | (o', Ok infos) => (o ++ o', Ok (info :: infos))
      | (o', Raise e) => (o ++ o', Raise e)
      end
    | (o, Raise e) => (o, Raise e)
    end.
Proof.
  cbn [collect]. unfold bind, ret.
  destruct (fetch requests_get c) as [o [info | e]]; [|reflexivity].
  destruct (collect codes (fetch requests_get)) as [o' [infos | e]];
    [|reflexivity].
  now rewrite app_nil_r.
Qed.


Lemma collect_length requests_get codes out infos :
  collect codes (fetch requests_get) = (out, Ok infos) ->
  List.length infos = List.length codes.
Proof.
  revert out infos. induction codes as [|c codes IH]; intros out infos H.
  - injection H as _ <-. reflexivity.
  - rewrite collect_cons in H.
    destruct (fetch requests_get c) as [o [info | e0]]; [|discriminate].
    destruct (collect codes (fetch requests_get)) as [o' [infos' | e1]] eqn:Hc;
      [|discriminate].
    injection H as _ <-. cbn [List.length]. f_equal. now apply (IH o').
Qed.


Lemma collect_silent requests_get codes out infos :
  collect codes (fetch requests_get) = (out, Ok infos) ->
  Forall (fun info => info <> None) infos ->
  out = [].
Proof.
  revert out infos. induction codes as [|c codes IH]; intros out infos H Hall.
  - now injection H as <- _.
  - rewrite collect_cons in H.
    destruct (fetch requests_get c) as [o [info | e0]] eqn:Hf; [|discriminate].
    destruct (collect codes (fetch requests_get)) as [o' [infos' | e1]] eqn:Hc;
      [|discriminate].
    injection H as <- <-. inversion Hall as [|? ? Hinfo Hrest]; subst.
    rewrite (IH o' infos' eq_refl Hrest), app_nil_r.
    destruct info as [q|]; [|congruence].
    now destruct (fetch_some_inv _ _ _ _ Hf).
Qed.



End FetchFacts.



(* ================================================================= *)
(** ** Further properties: the refresh loop *)

Section LoopFacts.
Variable east_asian_width : char -> ea_width.
Variable float_of_str : str -> option float.

Local Abbreviation fetch := (get_stock_price_optimized float_of_str).
Local Abbreviation cycle := (refresh east_asian_width float_of_str).
Local Abbreviation start := (run east_asian_width float_of_str).
Local Abbreviation show_info := (display_stock_info east_asian_width).
Local Abbreviation header_line := (one_line east_asian_width header).
Local Abbreviation row := (row_of east_asian_width).

(** One pass of the loop, outcome by outcome. *)
Lemma refresh_cases stock_codes w :
  cycle stock_codes w
  = match collect stock_codes (fetch (requests_get w)) with
    | (o, Raise e) => (Text cursor_home :: Line header_line :: o, Raise e)
    | (o, Ok infos) =>
      match sorted_reverse flt sort_key infos with
      | Raise e => (Text cursor_home :: Line header_line :: o, Raise e)
      | Ok ordered =>
        match for_each ordered
                (fun info => show_info info (last stock_codes [])) with
        | (o', Ok _) =>
          (Text cursor_home :: Line header_line :: o ++ o'
             ++ [Line (stamp w)], Ok tt)
        | (o', Raise e) =>
          (Text cursor_home :: Line header_line :: o ++ o', Raise e)
        end
      end
    end.
Proof.
  unfold refresh, display_one_line, print, emit, lift, stamp, cursor_home.
  cbn [bind app].
  destruct (collect stock_codes (fetch (requests_get w)))
    as [o [infos | e]]; cbn [bind]; [|reflexivity].
  destruct (sorted_reverse flt sort_key infos) as [ordered | e];
    cbn [bind app]; [|now rewrite app_nil_r].
  destruct (for_each ordered _) as [o' [[] | e]]; reflexivity.
Qed.

Lemma display_renderable info stock_code :
  renderable info ->
  show_info info stock_code = ([Line (row stock_code info)], Ok tt).
Proof.
  intros (q & -> & Hz). unfold display_stock_info, fdiv. rewrite Hz.
  reflexivity.
Qed.


Lemma for_each_rows stock_code infos :
  Forall renderable infos ->
  for_each infos (fun info => show_info info stock_code)
  = (map (fun info => Line (row stock_code info)) infos, Ok tt).
Proof.
  induction 1 as [|info infos Hi _ IH]; [reflexivity|].
  cbn [for_each map]. rewrite (display_renderable _ _ Hi).
  unfold bind. now rewrite IH.
Qed.


Lemma sort_key_renderable info k :
  sort_key info = Ok k -> renderable info.
Proof.
  destruct info as [q|]; [|discriminate]. cbn [sort_key]. unfold fdiv.
  destruct (is_zero (close q)) eqn:Hz; [discriminate|].
  intros _. now exists q.
Qed.

Lemma renderable_sort_key info :
  renderable info -> exists k, sort_key info = Ok k.
Proof.
  intros (q & -> & Hz). cbn [sort_key]. unfold fdiv. rewrite Hz.
  now eexists.
Qed.

Lemma sorted_renderable infos :
  Forall renderable infos ->
  exists ordered,
    sorted_reverse flt sort_key infos = Ok ordered
    /\ Permutation infos ordered.
Proof.
  intros Hall.
  destruct (decorate_total sort_key infos) as [kl Hkl].
  { eapply Forall_impl; [|exact Hall]. apply renderable_sort_key. }
  destruct (decorate_ok sort_key infos kl Hkl) as [Hmap _].
  exists (map snd (sort_desc flt kl)). split.
  - unfold sorted_reverse. now rewrite Hkl.
  - rewrite <- Hmap. apply Permutation_map, sort_desc_perm.
Qed.

Lemma sorted_only_renderable infos ordered :
  sorted_reverse flt sort_key infos = Ok ordered ->
  Forall renderable infos.
Proof.
  unfold sorted_reverse.
  destruct (decorate sort_key infos) as [kl|] eqn:Hkl; [|discriminate].
  intros _. destruct (decorate_ok sort_key infos kl Hkl) as [Hmap Hkeys].
  rewrite <- Hmap. apply Forall_map.
  eapply Forall_impl; [|exact Hkeys].
  intros p Hp. eapply sort_key_renderable. exact Hp.
Qed.

Lemma renderable_not_none infos :
  Forall renderable infos -> Forall (fun info => info <> None) infos.
Proof.
  apply Forall_impl. intros info (q & -> & _). discriminate.
Qed.

(** X8. Once the fetch loop has returned its outcomes, the cycle
    completes if and only if every outcome is a quote whose previous
    close is not zero. *)
Theorem cycle_completes_iff stock_codes w out infos :
  collect stock_codes (fetch (requests_get w)) = (out, Ok infos) ->
  (exists printed, cycle stock_codes w = (printed, Ok tt))
  <-> Forall renderable infos.
Proof.
  intros Hc. rewrite refresh_cases, Hc. split.
  - intros (printed & H).
    destruct (sorted_reverse flt sort_key infos) as [ordered | e] eqn:Hs;
      [|discriminate].
    eapply sorted_only_renderable. exact Hs.
  - intros Hall.
    destruct (sorted_renderable infos Hall) as (ordered & -> & Hp).
    rewrite for_each_rows.
    + now eexists.
    + eapply Permutation_Forall; eassumption.
Qed.

(** X9. A cycle in which every outcome is a quote whose sort key is a
    number (the previous close is not zero and the key is not nan)
    prints, in this order: the cursor move, the header, one row per
    configured code, in the order the sort step returns, and the time
    line; it prints no diagnostic.  Every row carries the last
    configured code. *)
Theorem completed_cycle_output stock_codes w out infos :
  collect stock_codes (fetch (requests_get w)) = (out, Ok infos) ->
  Forall (fun info => exists k, sort_key info = Ok k /\ is_nan k = false)
         infos ->
  exists ordered,
    sorted_reverse flt sort_key infos = Ok ordered
    /\ Permutation infos ordered
    /\ List.length ordered = List.length stock_codes
    /\ cycle stock_codes w
       = (Text cursor_home :: Line header_line
            :: map (fun info => Line (row (last stock_codes []) info)) ordered
            ++ [Line (stamp w)],
          Ok tt).
Proof.
  intros Hc Hkeys.
  assert (Hall : Forall renderable infos).
  { eapply Forall_impl; [|exact Hkeys].
    intros info (k & Hk & _). eapply sort_key_renderable. exact Hk. }
  destruct (sorted_renderable infos Hall) as (ordered & Hs & Hp).
  exists ordered. split; [exact Hs|]. split; [exact Hp|]. split.
  - rewrite <- (Permutation_length Hp).
    eapply collect_length. exact Hc.
  - rewrite refresh_cases, Hc, Hs, for_each_rows.
    + rewrite (collect_silent _ _ _ _ _ Hc (renderable_not_none _ Hall)).
      reflexivity.
    + eapply Permutation_Forall; eassumption.
Qed.





End LoopFacts.

Lemma cycle_completes_iff_witness :
  exists printed,
    refresh eaw_excerpt decimal_float two_codes world_both = (printed, Ok tt).
Proof.
  refine (proj2 (cycle_completes_iff eaw_excerpt decimal_float two_codes
                   world_both [] [Some sample_quote; Some sample_quote] _) _).
  - vm_compute. reflexivity.
  - repeat (constructor; [exists sample_quote; split; reflexivity|]).
    constructor.
Defined.

Lemma completed_cycle_output_witness :
  exists ordered,
    sorted_reverse flt sort_key [Some falling_quote; Some sample_quote]
    = Ok ordered
    /\ refresh eaw_excerpt decimal_float two_codes world_mixed
       = (Text cursor_home :: Line (one_line eaw_excerpt header)
            :: map (fun info => Line (row_of eaw_excerpt (lit "sz000001") info))
                   ordered
            ++ [Line (stamp world_mixed)],
          Ok tt).
Proof.
  destruct (completed_cycle_output eaw_excerpt decimal_float two_codes
              world_mixed [] [Some falling_quote; Some sample_quote])
    as (ordered & Hs & _ & _ & Hc).
  - vm_compute. reflexivity.
  - repeat (constructor;
            [eexists; split; vm_compute; reflexivity|]).
    constructor.
  - exists ordered. split; assumption.
Defined.



(* ================================================================= *)
(** ** Further properties: the configured codes *)

Lemma split_go_char_cons c cur x s :
  split_go [c] O cur (x :: s)
  = if char_eqb c x then rev cur :: split_go [c] O [] s
    else split_go [c] O (x :: cur) s.
Proof. cbn [split_go starts_with List.length pred]. now rewrite andb_true_r. Qed.

Lemma split_go_char_free c s : forall cur,
  ~ In c cur ->
  Forall (fun piece => ~ In c piece) (split_go [c] O cur s).
Proof.
  induction s as [|x s IH]; intros cur Hcur.
  - cbn [split_go]. constructor; [|constructor].
    intros Hin. apply Hcur. now apply in_rev.
  - rewrite split_go_char_cons. destruct (char_eqb c x) eqn:Hx.
    + constructor.
      * intros Hin. apply Hcur. now apply in_rev.
      * apply IH. intros [].
    + apply IH. intros [Heq | Hin]; [|now apply Hcur].
      apply char_eqb_neq in Hx. congruence.
Qed.

Lemma split_go_char_incl c s : forall cur piece x,
  In piece (split_go [c] O cur s) -> In x piece -> In x cur \/ In x s.
Proof.
  induction s as [|y s IH]; intros cur piece x Hp Hx.
  - cbn [split_go] in Hp. destruct Hp as [<- | []].
    left. now apply in_rev.
  - rewrite split_go_char_cons in Hp. destruct (char_eqb c y).
    + destruct Hp as [<- | Hp].
      * left. now apply in_rev.
      * destruct (IH [] piece x Hp Hx) as [[] | H]. right. now right.
    + destruct (IH (y :: cur) piece x Hp Hx) as [[<- | H] | H].
      * right. now left.
      * now left.
      * right. now right.
Qed.

Lemma split_go_char_cover c s : forall cur x,
  x <> c -> In x cur \/ In x s ->
  exists piece, In piece (split_go [c] O cur s) /\ In x piece.
Proof.
  induction s as [|y s IH]; intros cur x Hxc Hx.
  - destruct Hx as [Hx | []]. exists (rev cur). split; [now left|].
    now apply in_rev in Hx.
  - rewrite split_go_char_cons. destruct (char_eqb c y) eqn:Hy.
    + apply char_eqb_eq in Hy. subst y.
      destruct Hx as [Hx | [Heq | Hx]].
      * exists (rev cur). split; [now left|]. now apply in_rev in Hx.
      * congruence.
      * destruct (IH [] x Hxc (or_intror Hx)) as (piece & Hp & Hin).
        exists piece. split; [now right | exact Hin].
    + apply (IH (y :: cur) x Hxc).
      destruct Hx as [Hx | [-> | Hx]].
      * left. now right.
      * left. now left.
      * now right.
Qed.

Lemma split_go_char_field c f rest : forall cur,
  ~ In c f ->
  split_go [c] O cur (f ++ rest) = split_go [c] O (rev f ++ cur) rest.
Proof.
  induction f as [|x f IH]; intros cur Hf; [reflexivity|].
  cbn [app]. rewrite split_go_char_cons.
  assert (Hx : char_eqb c x = false).
  { apply char_eqb_neq. intros Heq. apply Hf. now left. }
  rewrite Hx, IH.
  - cbn [rev]. now rewrite <- app_assoc.
  - intros Hin. apply Hf. now right.
Qed.

Lemma split_char_join c fields :
  fields <> [] ->
  Forall (fun f => ~ In c f) fields ->
  split [c] (join [c] fields) = fields.
Proof.
  intros Hne Hall. unfold split.
  assert (H : forall cur,
             split_go [c] O cur (join [c] fields)
             = match fields with
               | [] => [rev cur]
               | f :: rest => (rev cur ++ f) :: rest
               end).
  { clear Hne. induction Hall as [|f rest Hf Hrest IH]; intros cur.
    - reflexivity.
    - destruct rest as [|g rest].
      + cbn [join]. rewrite <- (app_nil_r f) at 1.
        rewrite split_go_char_field by assumption.
        cbn [split_go]. now rewrite rev_app_distr, rev_involutive.
      + change (join [c] (f :: g :: rest))
          with (f ++ c :: join [c] (g :: rest)).
        rewrite split_go_char_field by assumption.
        rewrite split_go_char_cons.
        replace (char_eqb c c) with true
          by (symmetry; now apply char_eqb_eq).
        rewrite rev_app_distr, rev_involutive, (IH []).
        reflexivity. }
  rewrite H. destruct fields; [congruence | reflexivity].
Qed.

(** Stripping. *)
Lemma lstrip_clean chars s c :
  hd_error (lstrip chars s) = Some c -> char_in chars c = false.
Proof.
  induction s as [|x s IH]; cbn [lstrip]; [discriminate|].
  destruct (char_in chars x) eqn:Hx; [exact IH|].
  now intros [= <-].
Qed.

Lemma lstrip_fixed chars s :
  (forall c, hd_error s = Some c -> char_in chars c = false) ->
  lstrip chars s = s.
Proof.
  destruct s as [|x s]; [reflexivity|]. intros H. cbn [lstrip].
  now rewrite (H x eq_refl).
Qed.

Lemma rstrip_fixed chars s :
  (forall c, hd_error (rev s) = Some c -> char_in chars c = false) ->
  rstrip chars s = s.
Proof.
  intros H. unfold rstrip. rewrite lstrip_fixed by assumption.
  apply rev_involutive.
Qed.

Lemma rstrip_clean_end chars s c :
  hd_error (rev (rstrip chars s)) = Some c -> char_in chars c = false.
Proof. unfold rstrip. rewrite rev_involutive. apply lstrip_clean. Qed.

Lemma rstrip_keeps_start chars s c :
  (forall d, hd_error s = Some d -> char_in chars d = false) ->
  hd_error (rstrip chars s) = Some c -> char_in chars c = false.
Proof.
  destruct s as [|x s]; intros H.
  - discriminate.
  - pose proof (rstrip_app_stop chars [] x s (H x eq_refl)) as E.
    cbn [app] in E. rewrite E. intros [= Hc]. subst c. now apply H.
Qed.

Lemma strip_clean_start s c :
  hd_error (strip s) = Some c -> char_in whitespace c = false.
Proof.
  unfold strip. apply rstrip_keeps_start. intros d. apply lstrip_clean.
Qed.

Lemma strip_clean_end s c :
  hd_error (rev (strip s)) = Some c -> char_in whitespace c = false.
Proof. unfold strip. apply rstrip_clean_end. Qed.

Lemma strip_incl s c : In c (strip s) -> In c s.
Proof.
  unfold strip. intros H. apply rstrip_incl in H. now apply lstrip_incl in H.
Qed.

Lemma strip_fixed s :
  (forall c, hd_error s = Some c -> char_in whitespace c = false) ->
  (forall c, hd_error (rev s) = Some c -> char_in whitespace c = false) ->
  strip s = s.
Proof.
  intros Hs He. unfold strip. rewrite lstrip_fixed by assumption.
  now apply rstrip_fixed.
Qed.

Lemma lstrip_keeps chars s x :
  In x s -> char_in chars x = false -> In x (lstrip chars s).
Proof.
  intros Hin Hx. induction s as [|y s IH]; [contradiction|].
  cbn [lstrip]. destruct (char_in chars y) eqn:Hy; [|exact Hin].
  destruct Hin as [-> | Hin]; [congruence | now apply IH].
Qed.

Lemma strip_keeps s x :
  In x s -> char_in whitespace x = false -> In x (strip s).
Proof.
  intros Hin Hx. unfold strip, rstrip. apply -> in_rev.
  apply lstrip_keeps; [|exact Hx]. apply -> in_rev.
  now apply lstrip_keeps.
Qed.

Lemma strip_blank s :
  Forall (fun c => char_in whitespace c = true) s -> strip s = [].
Proof.
  intros H. unfold strip.
  rewrite <- (app_nil_r s), lstrip_app_all by assumption. reflexivity.
Qed.

Lemma truthy_nonempty s : truthy s = true <-> s <> [].
Proof.
  destruct s as [|c s]; cbn [truthy]; split; intros H.
  - discriminate.
  - now contradiction H.
  - discriminate.
  - reflexivity.
Qed.

Lemma clean_code_strip code : clean_code code -> strip code = code.
Proof. intros (_ & _ & Hs & He). now apply strip_fixed. Qed.

Lemma codes_of_all_clean value : Forall clean_code (codes_of value).
Proof.
  unfold codes_of. apply Forall_forall. intros code Hin.
  apply in_map_iff in Hin as (piece & <- & Hp).
  apply filter_In in Hp as [Hp Ht].
  assert (Hfree : ~ In COMMA piece).
  { pose proof (split_go_char_free COMMA value [] (fun H => H)) as Hall.
    rewrite Forall_forall in Hall. now apply Hall. }
  split; [now apply truthy_nonempty|]. split; [|split].
  - intros Hin. apply Hfree. now apply strip_incl.
  - apply strip_clean_start.
  - apply strip_clean_end.
Qed.

Lemma codes_of_fields fields :
  Forall (fun f => ~ In COMMA f) fields ->
  codes_of (join [COMMA] fields)
  = map strip (filter (fun f => truthy (strip f)) fields).
Proof.
  intros Hall. destruct fields as [|f fields]; [reflexivity|].
  unfold codes_of. now rewrite split_char_join by (assumption || discriminate).
Qed.

Lemma codes_of_clean_codes codes :
  Forall clean_code codes -> codes_of (join [COMMA] codes) = codes.
Proof.
  intros Hall. rewrite codes_of_fields.
  - induction Hall as [|code codes Hc _ IH]; [reflexivity|].
    cbn [filter]. rewrite (clean_code_strip _ Hc).
    assert (Hne : truthy code = true)
      by (apply truthy_nonempty; now destruct Hc).
    rewrite Hne. cbn [map].
    now rewrite (clean_code_strip _ Hc), IH.
  - eapply Forall_impl; [|exact Hall]. now intros code (_ & H & _).
Qed.

(** X12. Every code that [load_config] keeps is non-empty, contains no
    comma and neither starts nor ends with a whitespace character, so
    stripping it again changes nothing. *)
Theorem configured_codes_are_clean (value : str) :
  Forall (fun code =>
            code <> []
            /\ ~ In COMMA code
            /\ (forall c, hd_error code = Some c ->
                          char_in whitespace c = false)
            /\ (forall c, hd_error (rev code) = Some c ->
                          char_in whitespace c = false)
            /\ strip code = code)
         (codes_of value).
Proof.
  eapply Forall_impl; [|apply codes_of_all_clean].
  intros code Hc. pose proof (clean_code_strip _ Hc).
  destruct Hc as (H1 & H2 & H3 & H4). now repeat split.
Qed.

(** X13. Of comma-free entries joined by commas, [load_config] keeps the
    stripped entries that are not blank, in order.  In particular a list
    of codes that are non-empty, comma-free and without whitespace at
    either end is read back unchanged from its comma-joined text, and
    reading the joined text of what was read gives the same codes
    again. *)
Theorem configured_codes_round_trip :
  (forall entries,
      Forall (fun f => ~ In COMMA f) entries ->
      codes_of (join [COMMA] entries)
      = map strip (filter (fun f => truthy (strip f)) entries))
  /\ (forall codes,
         Forall clean_code codes -> codes_of (join [COMMA] codes) = codes)
  /\ (forall value,
         codes_of (join [COMMA] (codes_of value)) = codes_of value).
Proof.
  split; [exact codes_of_fields|]. split; [exact codes_of_clean_codes|].
  intros value. apply codes_of_clean_codes, codes_of_all_clean.
Qed.

Lemma filter_none {A} (f : A -> bool) l :
  (forall x, In x l -> f x = false) -> filter f l = [].
Proof.
  induction l as [|x l IH]; intros H; [reflexivity|].
  cbn [filter]. rewrite (H x (or_introl eq_refl)).
  apply IH. intros y Hy. apply H. now right.
Qed.

Lemma codes_of_nil_iff value :
  codes_of value = []
  <-> Forall (fun c => c = COMMA \/ char_in whitespace c = true) value.
Proof.
  unfold codes_of, split. split.
  - intros H. apply Forall_forall. intros x Hx.
    destruct (N.eq_dec x COMMA) as [-> | Hne]; [now left|]. right.
    destruct (char_in whitespace x) eqn:Hws; [reflexivity|]. exfalso.
    destruct (split_go_char_cover COMMA value [] x Hne (or_intror Hx))
      as (piece & Hp & Hin).
    assert (Hkeep : In (strip piece)
                       (map strip (filter (fun code => truthy (strip code))
                                          (split_go [COMMA] O [] value)))).
    { apply in_map. apply filter_In. split; [exact Hp|].
      apply truthy_nonempty. intros E.
      pose proof (strip_keeps piece x Hin Hws) as Hk. now rewrite E in Hk. }
    now rewrite H in Hkeep.
  - intros Hall.
    assert (Hf : filter (fun code => truthy (strip code))
                        (split_go [COMMA] O [] value) = []).
    { apply filter_none. intros piece Hp.
      rewrite strip_blank; [reflexivity|].
      apply Forall_forall. intros x Hx.
      destruct (split_go_char_incl COMMA value [] piece x Hp Hx) as [[] | Hv].
      rewrite Forall_forall in Hall. destruct (Hall x Hv) as [-> | Hws].
      - exfalso.
        pose proof (split_go_char_free COMMA value [] (fun H => H)) as Hfree.
        rewrite Forall_forall in Hfree. now apply (Hfree piece Hp).
      - exact Hws. }
    now rewrite Hf.
Qed.

(** X14. No code is configured exactly when the configured text holds
    nothing but commas and whitespace; [run] then prints its notice and
    returns, without a request and without clearing the screen,
    whatever the quote server would answer. *)
Theorem blank_codes_fetch_nothing east_asian_width float_of_str
  (value : str) :
  (codes_of value = []
   <-> Forall (fun c => c = COMMA \/ char_in whitespace c = true) value)
  /\ (Forall (fun c => c = COMMA \/ char_in whitespace c = true) value ->
      forall worlds,
        run east_asian_width float_of_str (codes_of value) worlds
        = ([Line no_codes_notice], Ok tt)).
Proof.
  split; [apply codes_of_nil_iff|].
  intros Hall worlds. rewrite (proj2 (codes_of_nil_iff value) Hall).
  unfold run, print, no_codes_notice. reflexivity.
Qed.

Lemma configured_codes_round_trip_witness :
  codes_of default_codes
  = [lit "sh601318"; lit "sz000001"; lit "sh600036"; lit "sz000858"].
Proof.
  refine (proj1 (proj2 configured_codes_round_trip)
                [lit "sh601318"; lit "sz000001"; lit "sh600036";
                 lit "sz000858"] _).
  repeat (constructor;
          [split; [discriminate|];
           split; [vm_compute; intuition discriminate|];
           split; intros c [= <-]; reflexivity|]).
  constructor.
Defined.

Lemma blank_codes_fetch_nothing_witness :
  run eaw_excerpt decimal_float (codes_of (lit " , ,, ")) [world_both]
  = ([Line no_codes_notice], Ok tt).
Proof.
  refine (proj2 (blank_codes_fetch_nothing eaw_excerpt decimal_float
                   (lit " , ,, ")) _ [world_both]).
  repeat (constructor; [(left; reflexivity) || (right; reflexivity)|]).
  constructor.
Defined.

(* ================================================================= *)
(** ** Further properties: the order of the rows, and the parser *)

Ltac step_fields H :=
  match type of H with
  | context [index ?l ?i] =>
    unfold index at 1 in H;
    let E := fresh "E" in
    destruct (nth_error l i) eqn:E; cbn [rbind] in H
  | context [to_float ?f ?t] =>
    unfold to_float at 1 in H;
    let E := fresh "F" in
    destruct (f t) eqn:E; cbn [rbind] in H
  end.

Lemma extract_name float_of_str fields q :
  extract float_of_str fields = Ok q ->
  nth_error fields 1 = Some (name q).
Proof.
  intros H. unfold extract in H.
  repeat step_fields H; try discriminate.
  now injection H as <-.
Qed.

Section RowFacts.
Variable east_asian_width : char -> ea_width.
Variable float_of_str : str -> option float.

Local Abbreviation parse := (parse_response float_of_str).
Local Abbreviation fetch := (get_stock_price_optimized float_of_str).
Local Abbreviation cycle := (refresh east_asian_width float_of_str).
Local Abbreviation header_line := (one_line east_asian_width header).
Local Abbreviation row := (row_of east_asian_width).

Lemma sorted_reverse_descending infos :
  Forall (fun info => exists k, sort_key info = Ok k /\ is_nan k = false)
         infos ->
  exists ordered,
    sorted_reverse flt sort_key infos = Ok ordered
    /\ Permutation infos ordered
    /\ StronglySorted descending ordered.
Proof.
  intros Hall.
  destruct (decorate_total sort_key infos) as [kl Hkl].
  { eapply Forall_impl; [|exact Hall]. intros info (k & Hk & _). now exists k. }
  destruct (decorate_ok sort_key infos kl Hkl) as [Hmap Hkeys].
  assert (Hgood : Forall (fun p : float * option stock_info =>
                            is_nan (fst p) = false) kl).
  { rewrite <- Hmap in Hall. rewrite Forall_forall in Hall, Hkeys |- *.
    intros p Hp. destruct (Hall (snd p)) as (k & Hk & Hnan).
    - now apply in_map.
    - rewrite (Hkeys p Hp) in Hk. now injection Hk as ->. }
  exists (map snd (sort_desc flt kl)). split; [|split].
  - unfold sorted_reverse. now rewrite Hkl.
  - rewrite <- Hmap. apply Permutation_map, sort_desc_perm.
  - apply descending_map.
    + eapply Permutation_Forall; [apply sort_desc_perm | exact Hkeys].
    + apply (sort_desc_sorted flt (fun k => is_nan k = false)).
      * intros a _. apply flt_irrefl.
      * intros a b c. apply flt_trans.
      * intros a b c. apply flt_ntrans.
      * exact Hgood.
Qed.

Lemma row_shows_sort_key info k stock_code :
  sort_key info = Ok k ->
  exists q,
    info = Some q
    /\ row stock_code info
       = one_line east_asian_width
           {| code_text := stock_code;
              name_text := name q;
              current_text := format_f2 false (current q);
              change_text :=
                change_str (fsub (current q) (close q))
                           (fmul k (float_of_int 100));
              high_text := rjust 7 (format_f2 false (high q));
              low_text := rjust 7 (format_f2 false (low q)) |}.
Proof.
  destruct info as [q|]; [|discriminate]. cbn [sort_key]. unfold fdiv.
  destruct (is_zero (close q)); [discriminate|].
  intros [= <-]. now exists q.
Qed.

(** X15. In a cycle whose outcomes all have a sort key that is a number,
    the rows are printed in descending order of the sort key, and the
    percent shown in each row is one hundred times the sort key of its
    quote: the table is ordered by the percent it displays. *)
Theorem rows_in_descending_order stock_codes w out infos :
  collect stock_codes (fetch (requests_get w)) = (out, Ok infos) ->
  Forall (fun info => exists k, sort_key info = Ok k /\ is_nan k = false)
         infos ->
  exists ordered,
    cycle stock_codes w
    = (Text cursor_home :: Line header_line
         :: map (fun info => Line (row (last stock_codes []) info)) ordered
         ++ [Line (stamp w)],
       Ok tt)
    /\ Permutation infos ordered
    /\ StronglySorted descending ordered
    /\ forall info,
        In info ordered ->
        exists q k,
          info = Some q /\ sort_key info = Ok k
          /\ row (last stock_codes []) info
             = one_line east_asian_width
                 {| code_text := last stock_codes [];
                    name_text := name q;
                    current_text := format_f2 false (current q);
                    change_text :=
                      change_str (fsub (current q) (close q))
                                 (fmul k (float_of_int 100));
                    high_text := rjust 7 (format_f2 false (high q));
                    low_text := rjust 7 (format_f2 false (low q)) |}.
Proof.
  intros Hc Hall.
  destruct (sorted_reverse_descending infos Hall) as (ordered & Hs & Hp & Hd).
  assert (Hr : Forall renderable infos).
  { eapply Forall_impl; [|exact Hall].
    intros info (k & Hk & _). eapply sort_key_renderable. exact Hk. }
  exists ordered. split; [|split; [exact Hp|split; [exact Hd|]]].
  - rewrite refresh_cases, Hc, Hs, for_each_rows.
    + rewrite (collect_silent _ _ _ _ _ Hc (renderable_not_none _ Hr)).
      reflexivity.
    + eapply Permutation_Forall; eassumption.
  - intros info Hin.
    assert (Hin' : In info infos)
      by (eapply Permutation_in; [symmetry; exact Hp | exact Hin]).
    rewrite Forall_forall in Hall. destruct (Hall info Hin') as (k & Hk & _).
    destruct (row_shows_sort_key info k (last stock_codes []) Hk)
      as (q & Hq & Hrow).
    now exists q, k.
Qed.

(** X16. The parser ignores what precedes the opening marker: two
    response texts that differ only in a marker-free identifier parse
    alike, so a reply is never checked against the code that was
    requested. *)
Theorem parse_ignores_identifier identifier identifier' rest :
  occurs opening identifier = false ->
  occurs opening identifier' = false ->
  parse (identifier ++ opening ++ rest)
  = parse (identifier' ++ opening ++ rest).
Proof.
  intros H H'. rewrite !parse_response_fields. unfold fields_of.
  rewrite !split_opening by assumption.
  destruct (split opening rest); reflexivity.
Qed.

(** X17. The name of a parsed quote never contains a tilde, and a quote
    is returned only when the text after the opening marker holds at
    least 35 tilde-separated fields. *)
Theorem parsed_name_has_no_tilde requests_get stock_code out q :
  fetch requests_get stock_code = (out, Ok (Some q)) ->
  ~ In TILDE (name q)
  /\ exists raw,
      requests_get (url stock_code) = Response 200 raw
      /\ (35 <= List.length (fields_of raw))%nat
      /\ nth_error (fields_of raw) 1 = Some (name q).
Proof.
  intros Hf.
  destruct (fetch_some_inv _ _ _ _ _ Hf) as (_ & raw & Hreply & Hparse).
  rewrite parse_response_fields in Hparse.
  destruct (nth_error (split opening raw) 1); [|discriminate].
  assert (Hname : nth_error (fields_of raw) 1 = Some (name q)).
  { eapply extract_name. exact Hparse. }
  split; [|exists raw; split; [exact Hreply|split; [|exact Hname]]].
  - pose proof (split_go_char_free TILDE
                  (rstrip closing (nth 1 (split opening raw) [])) []
                  (fun H => H)) as Hfree.
    rewrite Forall_forall in Hfree. apply Hfree.
    eapply nth_error_In. exact Hname.
  - apply extract_inv in Hparse as [Hlen _]. lia.
Qed.

End RowFacts.

Lemma rows_in_descending_order_witness :
  exists ordered,
    Permutation [Some falling_quote; Some sample_quote] ordered
    /\ StronglySorted descending ordered
    /\ refresh eaw_excerpt decimal_float two_codes world_mixed
       = (Text cursor_home :: Line (one_line eaw_excerpt header)
            :: map (fun info => Line (row_of eaw_excerpt (lit "sz000001") info))
                   ordered
            ++ [Line (stamp world_mixed)],
          Ok tt).
Proof.
  destruct (rows_in_descending_order eaw_excerpt decimal_float two_codes
              world_mixed [] [Some falling_quote; Some sample_quote])
    as (ordered & Hc & Hp & Hd & _).
  - vm_compute. reflexivity.
  - repeat (constructor;
            [eexists; split; vm_compute; reflexivity|]).
    constructor.
  - exists ordered. repeat split; assumption.
Defined.

Lemma parse_ignores_identifier_witness :
  parse_response decimal_float
    (lit "v_sh601318" ++ opening ++ join [TILDE] sample_fields ++ closing)
  = parse_response decimal_float
      (lit "v_sz000001" ++ opening ++ join [TILDE] sample_fields ++ closing).
Proof.
  exact (parse_ignores_identifier decimal_float (lit "v_sh601318")
           (lit "v_sz000001") (join [TILDE] sample_fields ++ closing)
           eq_refl eq_refl).
Defined.

Lemma parsed_name_has_no_tilde_witness :
  ~ In TILDE (name sample_quote).
Proof.
  refine (proj1 (parsed_name_has_no_tilde decimal_float
                   (requests_get world_both) (lit "sh601318") []
                   sample_quote _)).
  vm_compute. reflexivity.
Defined.
